(** * jsonl-db: the entity store of [src/lib/jsonlDir.ts]

    A shallow embedding of [jsonlDir(dirPath).file(entityName)] and of the
    collaborators it calls, followed by the properties of the mutation
    protocol (add / findOne / find / update / delete / count).

    The operations run in a small state-and-error monad over a [world]:
    the file system (path to lines), a counter of I/O primitives, and a
    log of everything observable (callback invocations and I/O attempts). *)

From stdpp Require Import base option list gmap strings.

Module JsonlDir.

(** ** I/O primitives and errors *)

(** The file-system primitives the store issues, as they appear in the log. *)
Inductive io :=
  | ReadBatch (p : string)
  | CountLines (p : string)
  | AppendFile (p : string) (lines : list string)
  | Rename (src dst : string)
  | Remove (p : string).

(** What a call may throw: the [Error] of [add], a failed primitive, or a
    line that [JSON.parse] rejects while a batch is decoded. *)
Inductive error :=
  | InvalidInput
  | IOFailure (op : io)
  | SyntaxError.

Inductive result (A : Type) :=
  | Ok (a : A)
  | Err (e : error).
Arguments Ok {A} a.
Arguments Err {A} e.

Definition is_rename (op : io) : bool :=
  match op with Rename _ _ => true | _ => false end.

Definition is_write (op : io) : bool :=
  match op with
  | AppendFile _ _ | Rename _ _ | Remove _ => true
  | ReadBatch _ | CountLines _ => false
  end.

Definition is_append_to (p : string) (op : io) : bool :=
  match op with AppendFile q _ => bool_decide (q = p) | _ => false end.

(** ** File-system effects (node:fs) *)

(** [fs.appendFile]: creates the file when it is missing. *)
Definition fs_append (p : string) (lines : list string)
    (fs : gmap string (list string)) : option (gmap string (list string)) :=
  Some (<[p := default [] (fs !! p) ++ lines]> fs).

(** [fs.rename]: ENOENT when the source path does not exist; otherwise the
    destination is replaced in one step and the source path disappears. *)
Definition fs_rename (src dst : string)
    (fs : gmap string (list string)) : option (gmap string (list string)) :=
  match fs !! src with
  | Some content => Some (<[dst := content]> (delete src fs))
  | None => None
  end.

(** [fs.rm(path, {force: true})]. *)
Definition fs_remove (p : string)
    (fs : gmap string (list string)) : gmap string (list string) :=
  delete p fs.

(** ** Sample parameters

    Records given by their JSON text, two ways of batching and two fault
    plans; the examples at the end of the file run the store on them. *)

Definition text_parse (line : string) : option string := Some line.

(** A parser that, like [JSON.parse], ignores the blanks between tokens:
    the record is the text without them, so [stringify := id] writes a
    record back without blanks. *)
Fixpoint drop_spaces (s : string) : string :=
  match s with
  | EmptyString => EmptyString
  | String c rest =>
      if Ascii.eqb c Ascii.Space then drop_spaces rest else String c (drop_spaces rest)
  end.

Definition loose_parse (line : string) : option string :=
  Some (drop_spaces line).

Definition one_batch (lines : list string) : list (list string) := [lines].

Definition line_batches (lines : list string) : list (list string) :=
  (λ line, [line]) <$> lines.

Definition no_fault (n : nat) : bool := false.

(** The second I/O primitive fails: with one batch, the first append. *)
Definition second_fails (n : nat) : bool := bool_decide (n = 1).

Definition users : string := "users.jsonl".
Definition tmp : string := "tmp-1.jsonl".

Definition is_a (r : string) : bool := bool_decide (r = "a").
Definition is_b (r : string) : bool := bool_decide (r = "b").
Definition always (r : string) : bool := true.
Definition shout (r : string) : string := r +:+ "!".

Section file.

(** A record is an opaque JSON object; [stringify] and [parse] are
    [JSON.stringify] and [JSON.parse] on it. *)
Context {Record : Type}.
Variable stringify : Record → string.
Variable parse : string → option Record.

(** How the reader groups the lines of a file into batches. *)
Variable chunk : list string → list (list string).

(** Fault injection: [faulty n] makes the [n]-th I/O primitive fail. *)
Variable faulty : nat → bool.

(** [filePath] is [path.join(dirPath, entityName + ".jsonl")]. [tempPath]
    is the path [temporaryFileTask] hands to its callback. The helper is
    described as acquiring a temporary file path; whether it also puts an
    empty file there before the callback starts is [precreated]. *)
Variable filePath : string.
Variable tempPath : string.
Variable precreated : bool.

(** What the accessor of [./jsonl] does when it is handed zero lines is
    not fixed either: it returns at once, or it calls [fs.appendFile] with
    nothing to write, which still creates a missing file. The second is
    [empty_append_creates]. *)
Variable empty_append_creates : bool.

Inductive event :=
  | MatchFn (r : Record)
  | UpdateFn (r : Record)
  | Io (op : io) (ok : bool).

Record world := World {
  files : gmap string (list string);
  clock : nat;
  log : list event
}.

(** ** The monad *)

Definition M (A : Type) : Type := world → result A * world.

#[local] Instance M_ret : MRet M := λ A a w, (Ok a, w).
#[local] Instance M_bind : MBind M := λ A B f m w,
  match m w with
  | (Ok a, w') => f a w'
  | (Err e, w') => (Err e, w')
  end.

Definition throw {A} (e : error) : M A := λ w, (Err e, w).

Definition get_files : M (gmap string (list string)) := λ w, (Ok (files w), w).

Definition record_event (e : event) (w : world) : world :=
  World (files w) (clock w) (log w ++ [e]).

(** One I/O primitive: it fails when the fault plan says so or when the
    file system refuses it; either way the attempt is logged. *)
Definition perform (op : io)
    (eff : gmap string (list string) → option (gmap string (list string)))
    : M unit := λ w,
  let failed :=
    (Err (IOFailure op), World (files w) (S (clock w)) (log w ++ [Io op false])) in
  if faulty (clock w) then failed
  else match eff (files w) with
       | Some fs => (Ok (), World fs (S (clock w)) (log w ++ [Io op true]))
       | None => failed
       end.

(** Calling the caller's callbacks; each invocation is logged. *)
Definition call_matchFn (matchFn : Record → bool) (r : Record) : M bool :=
  λ w, (Ok (matchFn r), record_event (MatchFn r) w).

Definition call_updateFn (updateFn : Record → Record) (r : Record) : M Record :=
  λ w, (Ok (updateFn r), record_event (UpdateFn r) w).

(** ** Collaborators: [./jsonl] and [./temporaryFileTask] *)

(** Decoding a batch: [JSON.parse] on each line; one bad line fails the
    batch. *)
Definition decode (lines : list string) : M (list Record) := λ w,
  match mapM parse lines with
  | Some records => (Ok records, w)
  | None => (Err SyntaxError, w)
  end.

(** Modelled from the spec: the body of [read] in [./jsonl] is missing.
    For each batch in order: read it, decode it, invoke the visitor; stop
    as soon as the visitor returns true. The variable a visitor closes
    over is threaded as [s]. *)
Fixpoint scan {St} (p : string) (batches : list (list string))
    (visitor : list Record → St → M (bool * St)) (s : St) : M St :=
  match batches with
  | [] => mret s
  | b :: rest =>
      perform (ReadBatch p) Some;;
      batch ← decode b;
      '(stop, s') ← visitor batch s;
      if (stop : bool) then mret s' else scan p rest visitor s'
  end.

(** Modelled from the spec: [read] in [./jsonl] is missing. A file that
    does not exist yields zero batches. *)
Definition read {St} (p : string)
    (visitor : list Record → St → M (bool * St)) (s : St) : M St := λ w,
  match files w !! p with
  | None => (Ok s, w)
  | Some lines => scan p (chunk lines) visitor s w
  end.

(** Modelled from the spec: [count] in [./jsonl] is missing. The number of
    records in the file, zero when it does not exist. *)
Definition jsonl_count (p : string) : M nat :=
  perform (CountLines p) Some;;
  fs ← get_files;
  mret (length (default [] (fs !! p))).

(** Whether an append of [lines] reaches the file system. *)
Definition reaches_file (lines : list string) : bool :=
  empty_append_creates || bool_decide (lines ≠ []).

(** Modelled from the spec: [appendText] in [./jsonl] is missing. Appends
    the lines at the end of the file and creates the file when needed;
    the spec describes it for one or more lines, and [reaches_file] says
    what happens with none. *)
Definition appendText (p : string) (lines : list string) : M unit :=
  if reaches_file lines then perform (AppendFile p lines) (fs_append p lines)
  else mret ().

(** Modelled from the spec: [append] in [./jsonl] is missing. Serializes
    the records and appends them. *)
Definition append (p : string) (records : list Record) : M unit :=
  appendText p (stringify <$> records).

(** [promises.rename(src, dst)] of node:fs. *)
Definition rename (src dst : string) : M unit :=
  perform (Rename src dst) (fs_rename src dst).

(** Modelled from the spec: [./temporaryFileTask] is missing. The world
    in which the callback starts: the temporary path is acquired, with an
    empty file behind it only when [precreated]. *)
Definition task_start (w : world) : world :=
  if precreated
  then World (<[tempPath := []]> (files w)) (clock w) (log w)
  else w.

(** Modelled from the spec: [./temporaryFileTask] is missing. The cleanup:
    the temporary file is removed, present or not. *)
Definition task_end (w : world) : world :=
  World (fs_remove tempPath (files w)) (clock w)
    (log w ++ [Io (Remove tempPath) true]).

(** Modelled from the spec: [./temporaryFileTask] is missing. It acquires
    a temporary path, runs the task on it, and cleans up whether the task
    returned or threw; the task's result or error is the call's. *)
Definition temporaryFileTask {A} (task : string → M A) : M A := λ w,
  let '(r, w1) := task tempPath (task_start w) in
  (r, task_end w1).

(** ** The value [add] receives

    [data] is typed [T | T[]], but [add] tests it at run time, so every
    kind of JavaScript value can arrive. *)

Inductive js_value :=
  | JsUndefined
  | JsNull
  | JsBoolean (b : bool)
  | JsNumber (n : Z)
  | JsString (s : string)
  | JsFunction
  | JsObject (o : Record)
  | JsArray (items : list Record).

Definition typeof (v : js_value) : string :=
  match v with
  | JsUndefined => "undefined"
  | JsNull | JsObject _ | JsArray _ => "object"
  | JsBoolean _ => "boolean"
  | JsNumber _ => "number"
  | JsString _ => "string"
  | JsFunction => "function"
  end.

Definition isArray (v : js_value) : bool :=
  match v with JsArray _ => true | _ => false end.

Definition is_null (v : js_value) : bool :=
  match v with JsNull => true | _ => false end.

Definition isSingleJson (o : js_value) : bool :=
  bool_decide (typeof o = "object") && negb (is_null o) && negb (isArray o).

(** [data] seen as [T[]] (after [Array.isArray]) and [[data]] (after
    [isSingleJson]). *)
Definition array_items (data : js_value) : list Record :=
  match data with JsArray items => items | _ => [] end.

Definition single_item (data : js_value) : list Record :=
  match data with JsObject o => [o] | _ => [] end.

(** ** The entity store: [jsonlDir(dirPath).file(entityName)] *)

Definition add_items (itemsToAdd : list Record) (mutateDb : bool)
    : M (list Record) :=
  (if mutateDb then appendText filePath (stringify <$> itemsToAdd) else mret ());;
  mret itemsToAdd.

Definition add (data : js_value) (mutateDb : bool) : M (list Record) :=
  if isArray data then
    if bool_decide (length (array_items data) = 0) then mret []
    else add_items (array_items data) mutateDb
  else if isSingleJson data then add_items (single_item data) mutateDb
  else throw InvalidInput.

(** The visitor of [findOne]; its state is the pair [(found, canEnd)]. *)
Fixpoint findOne_visitor (matchFn : Record → bool) (batch : list Record)
    (st : option Record * bool) : M (bool * (option Record * bool)) :=
  match batch with
  | [] => mret (st.2, st)
  | jsonObject :: rest =>
      m ← call_matchFn matchFn jsonObject;
      if (m : bool) then mret (true, (Some jsonObject, true))
      else findOne_visitor matchFn rest st
  end.

Definition findOne (matchFn : Record → bool) : M (option Record) :=
  st ← read filePath (findOne_visitor matchFn) (None, false);
  mret st.1.

Fixpoint find_visitor (matchFn : Record → bool) (batch : list Record)
    (found : list Record) : M (bool * list Record) :=
  match batch with
  | [] => mret (false, found)
  | jsonObject :: rest =>
      m ← call_matchFn matchFn jsonObject;
      find_visitor matchFn rest (if (m : bool) then found ++ [jsonObject] else found)
  end.

Definition find (matchFn : Record → bool) : M (list Record) :=
  read filePath (find_visitor matchFn) [].

(** [batch.map(...)] of the durable [update]: the processed batch together
    with the grown [updated]. *)
Fixpoint update_map (matchFn : Record → bool) (updateFn : Record → Record)
    (batch : list Record) (updated : list Record)
    : M (list Record * list Record) :=
  match batch with
  | [] => mret ([], updated)
  | jsonObject :: rest =>
      m ← call_matchFn matchFn jsonObject;
      if (m : bool) then
        updatedObject ← call_updateFn updateFn jsonObject;
        '(processed, updated') ←
          update_map matchFn updateFn rest (updated ++ [updatedObject]);
        mret (updatedObject :: processed, updated')
      else
        '(processed, updated') ← update_map matchFn updateFn rest updated;
        mret (jsonObject :: processed, updated')
  end.

Definition update_durable_visitor (matchFn : Record → bool)
    (updateFn : Record → Record) (tmp : string)
    (batch : list Record) (updated : list Record) : M (bool * list Record) :=
  '(processedBatch, updated') ← update_map matchFn updateFn batch updated;
  append tmp processedBatch;;
  mret (false, updated').

(** The rewrite phase of the durable [update]: everything the task does
    before the rename. *)
Definition update_rewrite (matchFn : Record → bool)
    (updateFn : Record → Record) (tmp : string) : M (list Record) :=
  read filePath (update_durable_visitor matchFn updateFn tmp) [].

Fixpoint update_transient_visitor (matchFn : Record → bool)
    (updateFn : Record → Record) (batch : list Record)
    (updated : list Record) : M (bool * list Record) :=
  match batch with
  | [] => mret (false, updated)
  | jsonObject :: rest =>
      m ← call_matchFn matchFn jsonObject;
      if (m : bool) then
        updatedObject ← call_updateFn updateFn jsonObject;
        update_transient_visitor matchFn updateFn rest (updated ++ [updatedObject])
      else update_transient_visitor matchFn updateFn rest updated
  end.

Definition update (matchFn : Record → bool) (updateFn : Record → Record)
    (mutateDb : bool) : M (list Record) :=
  if mutateDb then
    temporaryFileTask (λ tmp,
      updated ← update_rewrite matchFn updateFn tmp;
      rename tmp filePath;;
      mret updated)
  else read filePath (update_transient_visitor matchFn updateFn) [].

(** [batch.filter(...)] of the durable [delete]: the kept part of the
    batch together with the grown [kept]. *)
Fixpoint delete_filter (matchFn : Record → bool)
    (batch : list Record) (kept : list Record)
    : M (list Record * list Record) :=
  match batch with
  | [] => mret ([], kept)
  | jsonObject :: rest =>
      m ← call_matchFn matchFn jsonObject;
      if negb m then
        '(keptBatch, kept') ← delete_filter matchFn rest (kept ++ [jsonObject]);
        mret (jsonObject :: keptBatch, kept')
      else delete_filter matchFn rest kept
  end.

Definition delete_durable_visitor (matchFn : Record → bool) (tmp : string)
    (batch : list Record) (kept : list Record) : M (bool * list Record) :=
  '(keptBatch, kept') ← delete_filter matchFn batch kept;
  (if bool_decide (0 < length keptBatch) then append tmp keptBatch else mret ());;
  mret (false, kept').

(** The rewrite phase of the durable [delete]. *)
Definition delete_rewrite (matchFn : Record → bool) (tmp : string)
    : M (list Record) :=
  read filePath (delete_durable_visitor matchFn tmp) [].

Fixpoint delete_transient_visitor (matchFn : Record → bool)
    (batch : list Record) (kept : list Record) : M (bool * list Record) :=
  match batch with
  | [] => mret (false, kept)
  | jsonObject :: rest =>
      m ← call_matchFn matchFn jsonObject;
      delete_transient_visitor matchFn rest
        (if negb m then kept ++ [jsonObject] else kept)
  end.

Definition delete (matchFn : Record → bool) (mutateDb : bool)
    : M (list Record) :=
  if mutateDb then
    temporaryFileTask (λ tmp,
      kept ← delete_rewrite matchFn tmp;
      rename tmp filePath;;
      mret kept)
  else read filePath (delete_transient_visitor matchFn) [].

Definition count : M nat := jsonl_count filePath.

(** A caller that awaits [add(records, true)] and then [find(matchFn)]. *)
Definition add_then_find (records : list Record) (matchFn : Record → bool)
    : M (list Record) :=
  add (JsArray records) true;;
  find matchFn.

(** The durable [delete] as the spec describes the variant without the
    optimization: every processed batch is appended, empty or not. *)
Definition delete_unconditional_visitor (matchFn : Record → bool)
    (tmp : string) (batch : list Record) (kept : list Record)
    : M (bool * list Record) :=
  '(keptBatch, kept') ← delete_filter matchFn batch kept;
  append tmp keptBatch;;
  mret (false, kept').

Definition delete_unconditional_rewrite (matchFn : Record → bool)
    (tmp : string) : M (list Record) :=
  read filePath (delete_unconditional_visitor matchFn tmp) [].

Definition delete_unconditional (matchFn : Record → bool) : M (list Record) :=
  temporaryFileTask (λ tmp,
    kept ← delete_unconditional_rewrite matchFn tmp;
    rename tmp filePath;;
    mret kept).

(** ** Observations on a log *)

Definition matchFn_calls (l : list event) : list Record :=
  omap (λ e, match e with MatchFn r => Some r | _ => None end) l.

Definition io_attempts (l : list event) : list io :=
  omap (λ e, match e with Io op _ => Some op | _ => None end) l.

(** The records up to and including the first one that satisfies [f]. *)
Fixpoint through_first (f : Record → bool) (l : list Record) : list Record :=
  match l with
  | [] => []
  | r :: rest => r :: (if f r then [] else through_first f rest)
  end.

(** What the file holds, an absent file counting as an empty one. *)
Definition content (p : string) (w : world) : list string :=
  default [] (files w !! p).

(** The record [update] puts in the place of [r]. *)
Definition updated_record (matchFn : Record → bool)
    (updateFn : Record → Record) (r : Record) : Record :=
  if matchFn r then updateFn r else r.

Definition update_calls (matchFn : Record → bool) (batch : list Record)
    : list event :=
  batch ≫= λ r, if matchFn r then [MatchFn r; UpdateFn r] else [MatchFn r].

(** ** What a run leaves as it found it *)

Definition keeps {A X} (obs : world → X) (m : M A) : Prop :=
  ∀ w, obs (m w).2 = obs w.

(** The whole file system and the write attempts made so far. *)
Definition storage (w : world) : gmap string (list string) * list io :=
  (files w, filter (λ op, is_write op = true) (io_attempts (log w))).

(** The backing file and the rename attempts made so far. *)
Definition original (w : world) : option (list string) * list io :=
  (files w !! filePath, filter (λ op, is_rename op = true) (io_attempts (log w))).

(** The file system after [lines] went to [p] in one or more appends, or
    untouched when no append was issued. *)
Definition appended (p : string) (lines : list string) (touched : bool)
    (fs : gmap string (list string)) : gmap string (list string) :=
  if touched then <[p := default [] (fs !! p) ++ lines]> fs else fs.

(** Whether an [append] of [batch] reaches the file system. *)
Definition written (batch : list Record) : bool :=
  empty_append_creates || bool_decide (batch ≠ []).

Definition encode_batches (batches : list (list Record)) : list (list string) :=
  (λ batch : list Record, stringify <$> batch) <$> batches.

(** A world whose only file is [p], holding [lines]; and one with no
    file at all. *)
Definition store_of (p : string) (lines : list string) : world :=
  World {[ p := lines ]} 0 [].

Definition empty_store : world := World ∅ 0 [].

(** The records [updateFn] was invoked on, in order. *)
Definition updateFn_calls (l : list event) : list Record :=
  omap (λ e, match e with UpdateFn r => Some r | _ => None end) l.

(** The calls as a caller writes them, [mutateDb] given or left out: the
    parameter defaults to [true] in [add] and to [false] in [update] and
    [delete]. *)
Definition add_call (data : js_value) (mutateDb : option bool)
    : M (list Record) :=
  add data (default true mutateDb).

Definition update_call (matchFn : Record → bool) (updateFn : Record → Record)
    (mutateDb : option bool) : M (list Record) :=
  update matchFn updateFn (default false mutateDb).

Definition delete_call (matchFn : Record → bool) (mutateDb : option bool)
    : M (list Record) :=
  delete matchFn (default false mutateDb).

(** * Properties *)

(** ** The file-system effects *)

Lemma fs_append_other p q lines fs fs' :
  p ≠ q → fs_append p lines fs = Some fs' → fs' !! q = fs !! q.
Proof. intros Hne [= <-]. by rewrite lookup_insert_ne. Qed.

Lemma fs_rename_dst src dst fs fs' :
  fs_rename src dst fs = Some fs' → fs' !! dst = fs !! src.
Proof.
  unfold fs_rename. destruct (fs !! src) as [c|] eqn:E; [|done].
  intros [= <-]. by rewrite lookup_insert_eq.
Qed.

Lemma fs_rename_missing src dst fs :
  fs !! src = None → fs_rename src dst fs = None.
Proof. unfold fs_rename. by intros ->. Qed.

Lemma fs_remove_other p q fs : p ≠ q → fs_remove p fs !! q = fs !! q.
Proof. intros. unfold fs_remove. by rewrite lookup_delete_ne. Qed.

(** ** Running the callbacks and the primitives *)

Lemma perform_ok op eff w fs :
  faulty (clock w) = false → eff (files w) = Some fs →
  perform op eff w = (Ok (), World fs (S (clock w)) (log w ++ [Io op true])).
Proof. intros Hf He. unfold perform. by rewrite Hf, He. Qed.

Lemma perform_refused op eff w :
  eff (files w) = None →
  perform op eff w =
    (Err (IOFailure op), World (files w) (S (clock w)) (log w ++ [Io op false])).
Proof. intros He. unfold perform. rewrite He. by destruct (faulty _). Qed.

Lemma perform_cases op eff w :
  (∃ fs, eff (files w) = Some fs ∧
     perform op eff w = (Ok (), World fs (S (clock w)) (log w ++ [Io op true])))
  ∨ perform op eff w =
      (Err (IOFailure op), World (files w) (S (clock w)) (log w ++ [Io op false])).
Proof.
  unfold perform. destruct (faulty _); [by right|].
  destruct (eff _) as [fs|]; [left; eauto | by right].
Qed.

Lemma findOne_visitor_run matchFn batch st w :
  findOne_visitor matchFn batch st w =
    (Ok (match List.find matchFn batch with
         | Some r => (true, (Some r, true))
         | None => (st.2, st)
         end),
     World (files w) (clock w)
       (log w ++ (MatchFn <$> through_first matchFn batch))).
Proof.
  revert w. induction batch as [|r rest IH]; intros [fs c l]; simpl.
  - unfold mret, M_ret. by rewrite app_nil_r.
  - unfold mbind, M_bind, call_matchFn, record_event. simpl.
    destruct (matchFn r); simpl.
    + done.
    + rewrite IH. simpl. by rewrite <-app_assoc.
Qed.

Lemma find_visitor_run matchFn batch found w :
  find_visitor matchFn batch found w =
    (Ok (false, found ++ filter (λ r, matchFn r = true) batch),
     World (files w) (clock w) (log w ++ (MatchFn <$> batch))).
Proof.
  revert found w. induction batch as [|r rest IH]; intros found [fs c l]; simpl.
  - unfold mret, M_ret. by rewrite !app_nil_r.
  - unfold mbind, M_bind, call_matchFn, record_event. simpl.
    rewrite IH. simpl. rewrite <-app_assoc. simpl.
    rewrite filter_cons. destruct (matchFn r); simpl.
    + by rewrite <-app_assoc.
    + done.
Qed.

Lemma update_map_run matchFn updateFn batch updated w :
  update_map matchFn updateFn batch updated w =
    (Ok (updated_record matchFn updateFn <$> batch,
         updated ++ (updateFn <$> filter (λ r, matchFn r = true) batch)),
     World (files w) (clock w) (log w ++ update_calls matchFn batch)).
Proof.
  revert updated w.
  induction batch as [|r rest IH]; intros updated [fs c l]; simpl.
  - unfold mret, M_ret. by rewrite !app_nil_r.
  - unfold mbind, M_bind, call_matchFn, call_updateFn, record_event,
      updated_record, update_calls. simpl.
    rewrite filter_cons. destruct (matchFn r) eqn:Hm; simpl.
    + rewrite IH. simpl. unfold mret, M_ret.
      by rewrite <-!app_assoc.
    + rewrite IH. simpl. unfold mret, M_ret.
      by rewrite <-!app_assoc.
Qed.

Lemma update_transient_visitor_run matchFn updateFn batch updated w :
  update_transient_visitor matchFn updateFn batch updated w =
    (Ok (false, updated ++ (updateFn <$> filter (λ r, matchFn r = true) batch)),
     World (files w) (clock w) (log w ++ update_calls matchFn batch)).
Proof.
  revert updated w.
  induction batch as [|r rest IH]; intros updated [fs c l]; simpl.
  - unfold mret, M_ret. by rewrite !app_nil_r.
  - unfold mbind, M_bind, call_matchFn, call_updateFn, record_event,
      update_calls. simpl.
    rewrite filter_cons. destruct (matchFn r) eqn:Hm; simpl.
    + rewrite IH. simpl.
      by rewrite <-!app_assoc.
    + rewrite IH. simpl.
      by rewrite <-!app_assoc.
Qed.

Lemma delete_filter_run matchFn batch kept w :
  delete_filter matchFn batch kept w =
    (Ok (filter (λ r, matchFn r = false) batch,
         kept ++ filter (λ r, matchFn r = false) batch),
     World (files w) (clock w) (log w ++ (MatchFn <$> batch))).
Proof.
  revert kept w. induction batch as [|r rest IH]; intros kept [fs c l]; simpl.
  - unfold mret, M_ret. by rewrite !app_nil_r.
  - unfold mbind, M_bind, call_matchFn, record_event. simpl.
    rewrite filter_cons. destruct (matchFn r) eqn:Hm; simpl.
    + rewrite IH. simpl.
      by rewrite <-!app_assoc.
    + rewrite IH. simpl. unfold mret, M_ret.
      by rewrite <-!app_assoc.
Qed.

Lemma delete_transient_visitor_run matchFn batch kept w :
  delete_transient_visitor matchFn batch kept w =
    (Ok (false, kept ++ filter (λ r, matchFn r = false) batch),
     World (files w) (clock w) (log w ++ (MatchFn <$> batch))).
Proof.
  revert kept w. induction batch as [|r rest IH]; intros kept [fs c l]; simpl.
  - unfold mret, M_ret. by rewrite !app_nil_r.
  - unfold mbind, M_bind, call_matchFn, record_event. simpl.
    rewrite IH. simpl. rewrite filter_cons. destruct (matchFn r) eqn:Hm; simpl.
    + by rewrite <-!app_assoc.
    + by rewrite <-!app_assoc.
Qed.

(** ** Frames, under any fault plan *)

Lemma keeps_ret {A X} (obs : world → X) (a : A) : keeps obs (mret a).
Proof. by intros w. Qed.

Lemma keeps_bind {A B X} (obs : world → X) (m : M A) (f : A → M B) :
  keeps obs m → (∀ a, keeps obs (f a)) → keeps obs (m ≫= f).
Proof.
  intros Hm Hf w. unfold mbind, M_bind. specialize (Hm w).
  destruct (m w) as [[a|e] w1]; simpl in *; [|done].
  by rewrite Hf.
Qed.

Lemma keeps_perform {X} (obs : world → X) op eff :
  (∀ w fs ok, eff (files w) = Some fs ∨ fs = files w →
     obs (World fs (S (clock w)) (log w ++ [Io op ok])) = obs w) →
  keeps obs (perform op eff).
Proof.
  intros H w. destruct (perform_cases op eff w) as [(fs & He & ->)| ->]; simpl.
  - apply H. by left.
  - apply H. by right.
Qed.

Lemma keeps_decode {X} (obs : world → X) lines : keeps obs (decode lines).
Proof. intros w. unfold decode. by destruct (mapM _ _). Qed.

Lemma keeps_scan {St X} (obs : world → X) p batches
    (visitor : list Record → St → M (bool * St)) s :
  keeps obs (perform (ReadBatch p) Some) →
  (∀ batch s, keeps obs (visitor batch s)) →
  keeps obs (scan p batches visitor s).
Proof.
  intros Hr Hv. revert s. induction batches as [|b rest IH]; intros s; simpl.
  - apply keeps_ret.
  - apply keeps_bind; [done|]. intros _.
    apply keeps_bind; [apply keeps_decode|]. intros batch.
    apply keeps_bind; [done|]. intros [[] s']; [apply keeps_ret | apply IH].
Qed.

Lemma keeps_read {St X} (obs : world → X) p
    (visitor : list Record → St → M (bool * St)) s :
  keeps obs (perform (ReadBatch p) Some) →
  (∀ batch s, keeps obs (visitor batch s)) →
  keeps obs (read p visitor s).
Proof.
  intros Hr Hv w. unfold read. destruct (files w !! p); [|done].
  by apply keeps_scan.
Qed.

Lemma io_attempts_app l1 l2 :
  io_attempts (l1 ++ l2) = io_attempts l1 ++ io_attempts l2.
Proof. apply omap_app. Qed.

Lemma matchFn_calls_app l1 l2 :
  matchFn_calls (l1 ++ l2) = matchFn_calls l1 ++ matchFn_calls l2.
Proof. apply omap_app. Qed.

Lemma io_attempts_MatchFn batch : io_attempts (MatchFn <$> batch) = [].
Proof. by induction batch. Qed.

Lemma matchFn_calls_MatchFn batch : matchFn_calls (MatchFn <$> batch) = batch.
Proof. induction batch; simpl; by f_equal. Qed.

Lemma io_attempts_update_calls matchFn batch :
  io_attempts (update_calls matchFn batch) = [].
Proof.
  induction batch as [|r rest IH]; [done|].
  change (update_calls matchFn (r :: rest)) with
    ((if matchFn r then [MatchFn r; UpdateFn r] else [MatchFn r])
       ++ update_calls matchFn rest).
  rewrite io_attempts_app, IH. by destruct (matchFn r).
Qed.

Lemma storage_read_batch p : keeps storage (perform (ReadBatch p) Some).
Proof.
  apply keeps_perform. intros w fs ok Hfs. unfold storage. simpl.
  rewrite io_attempts_app, filter_app. simpl. rewrite filter_cons. simpl.
  rewrite filter_nil, app_nil_r. by destruct Hfs as [[= <-]| ->].
Qed.

Lemma original_read_batch p : keeps original (perform (ReadBatch p) Some).
Proof.
  apply keeps_perform. intros w fs ok Hfs. unfold original. simpl.
  rewrite io_attempts_app, filter_app. simpl. rewrite filter_cons. simpl.
  rewrite filter_nil, app_nil_r. by destruct Hfs as [[= <-]| ->].
Qed.

Lemma original_append p records :
  p ≠ filePath → keeps original (append p records).
Proof.
  intros Hne. unfold append, appendText.
  destruct (reaches_file _); [|apply keeps_ret].
  apply keeps_perform. intros w fs ok Hfs. unfold original. simpl.
  rewrite io_attempts_app, filter_app. simpl. rewrite filter_cons. simpl.
  rewrite filter_nil, app_nil_r.
  destruct Hfs as [Hfs| ->]; [|done].
  by rewrite (fs_append_other _ _ _ _ _ Hne Hfs).
Qed.

Lemma storage_calls w evs :
  io_attempts evs = [] →
  storage (World (files w) (clock w) (log w ++ evs)) = storage w.
Proof.
  intros H. unfold storage. simpl. by rewrite io_attempts_app, H, app_nil_r.
Qed.

Lemma original_calls w evs :
  io_attempts evs = [] →
  original (World (files w) (clock w) (log w ++ evs)) = original w.
Proof.
  intros H. unfold original. simpl. by rewrite io_attempts_app, H, app_nil_r.
Qed.



Lemma original_update_rewrite matchFn updateFn tmp :
  tmp ≠ filePath → keeps original (update_rewrite matchFn updateFn tmp).
Proof.
  intros Hne. apply keeps_read; [apply original_read_batch|].
  intros batch updated w. unfold update_durable_visitor, mbind, M_bind.
  rewrite update_map_run.
  pose proof (original_append tmp (updated_record matchFn updateFn <$> batch)
                Hne) as Ha.
  match goal with |- context [append _ _ ?w1] => specialize (Ha w1) end.
  destruct (append _ _ _) as [[[]|e] w2]; simpl in *;
    rewrite Ha; apply original_calls, io_attempts_update_calls.
Qed.

Lemma original_delete_rewrite matchFn tmp :
  tmp ≠ filePath → keeps original (delete_rewrite matchFn tmp).
Proof.
  intros Hne. apply keeps_read; [apply original_read_batch|].
  intros batch kept w. unfold delete_durable_visitor, mbind, M_bind.
  rewrite delete_filter_run. case_bool_decide.
  - pose proof (original_append tmp
                  (filter (λ r, matchFn r = false) batch) Hne) as Ha.
    match goal with |- context [append _ _ ?w1] => specialize (Ha w1) end.
    destruct (append _ _ _) as [[[]|e] w2]; simpl in *;
      rewrite Ha; apply original_calls, io_attempts_MatchFn.
  - simpl. apply original_calls, io_attempts_MatchFn.
Qed.

Lemma storage_transient_update matchFn updateFn :
  keeps storage (update matchFn updateFn false).
Proof.
  apply keeps_read; [apply storage_read_batch|].
  intros batch updated w. rewrite update_transient_visitor_run. simpl.
  apply storage_calls, io_attempts_update_calls.
Qed.

Lemma storage_transient_delete matchFn :
  keeps storage (delete matchFn false).
Proof.
  apply keeps_read; [apply storage_read_batch|].
  intros batch kept w. rewrite delete_transient_visitor_run. simpl.
  apply storage_calls, io_attempts_MatchFn.
Qed.

(** ** Runs without faults over a file the store wrote itself *)

Lemma appended_after p l1 l2 t (fs : gmap string (list string)) :
  (t = false → l2 = []) →
  appended p l2 t (<[p := default [] (fs !! p) ++ l1]> fs) =
  <[p := default [] (fs !! p) ++ l1 ++ l2]> fs.
Proof.
  unfold appended. destruct t; intros H.
  - rewrite lookup_insert_eq, insert_insert_eq. simpl.
    by rewrite <-app_assoc.
  - by rewrite H, app_nil_r.
Qed.

Lemma find_app_Some (f : Record → bool) l1 l2 r :
  List.find f l1 = Some r →
  List.find f (l1 ++ l2) = Some r ∧
  through_first f (l1 ++ l2) = through_first f l1.
Proof.
  induction l1 as [|x l1 IH]; [done|]. simpl.
  destruct (f x); [done|]. intros H. destruct (IH H) as [-> ->]. done.
Qed.

Lemma find_app_None (f : Record → bool) l1 l2 :
  List.find f l1 = None →
  List.find f (l1 ++ l2) = List.find f l2 ∧
  through_first f (l1 ++ l2) = l1 ++ through_first f l2.
Proof.
  induction l1 as [|x l1 IH]; [done|]. simpl.
  destruct (f x); [done|]. intros H. destruct (IH H) as [-> ->]. done.
Qed.

Lemma split_batches (batches : list (list string)) (records : list Record) :
  concat batches = stringify <$> records →
  ∃ rbs, batches = encode_batches rbs ∧ concat rbs = records.
Proof.
  revert records. induction batches as [|b rest IH]; intros records H.
  - exists []. split; [done|]. simpl in H. symmetry in H.
    by apply fmap_nil_inv in H.
  - simpl in H. symmetry in H.
    apply fmap_app_inv in H as (r1 & r2 & -> & Hr2 & ->).
    destruct (IH _ Hr2) as (rbs & -> & <-).
    by exists (r1 :: rbs).
Qed.

Lemma reaches_file_nonempty lines : lines ≠ [] → reaches_file lines = true.
Proof.
  intros H. unfold reaches_file. rewrite bool_decide_eq_true_2 by done.
  apply orb_true_r.
Qed.

Lemma reaches_file_stringify (batch : list Record) :
  reaches_file (stringify <$> batch) = written batch.
Proof.
  unfold reaches_file, written. f_equal. apply bool_decide_ext.
  split; intros H E; apply H; [by rewrite E | by apply fmap_nil_inv in E].
Qed.

Lemma written_nonempty (batch : list Record) : batch ≠ [] → written batch = true.
Proof.
  intros H. unfold written. rewrite bool_decide_eq_true_2 by done.
  apply orb_true_r.
Qed.

Lemma written_fmap (f : Record → Record) batch :
  written (f <$> batch) = written batch.
Proof.
  unfold written. f_equal. apply bool_decide_ext.
  split; intros H E; apply H; [by rewrite E | by apply fmap_nil_inv in E].
Qed.

Lemma written_false (batch : list Record) : written batch = false → batch = [].
Proof.
  unfold written. intros [_ H]%orb_false_iff. apply bool_decide_eq_false in H.
  destruct batch; [done|]. by destruct H.
Qed.

Lemma none_written (rbs : list (list Record)) :
  existsb written rbs = false → concat rbs = [].
Proof.
  induction rbs as [|b rest IH]; [done|]. simpl.
  intros [Hb Hrest]%orb_false_iff. by rewrite (written_false _ Hb), IH.
Qed.

Lemma some_written (rbs : list (list Record)) :
  concat rbs ≠ [] → existsb written rbs = true.
Proof.
  intros H. destruct (existsb written rbs) eqn:E; [done|].
  destruct H. by apply none_written.
Qed.

Lemma split_decoded (batches : list (list string)) (records : list Record) :
  mapM parse (concat batches) = Some records →
  ∃ rbs, Forall2 (λ b rb, mapM parse b = Some rb) batches rbs ∧
         concat rbs = records.
Proof.
  revert records. induction batches as [|b rest IH]; intros records H.
  - exists []. split; [constructor|]. simpl in H. by injection H.
  - simpl in H. apply mapM_Some in H.
    apply Forall2_app_inv_l in H as (r1 & r2 & H1 & H2 & ->).
    apply mapM_Some in H1, H2.
    destruct (IH _ H2) as (rbs & Hrbs & <-).
    exists (r1 :: rbs). split; [by constructor|done].
Qed.

Section fault_free.

Hypothesis no_faults : ∀ n, faulty n = false.
Hypothesis parse_stringify : ∀ r, parse (stringify r) = Some r.
Hypothesis chunk_concat : ∀ lines, concat (chunk lines) = lines.

Lemma decode_stringify records w :
  decode (stringify <$> records) w = (Ok records, w).
Proof.
  unfold decode.
  rewrite (mapM_fmap_Forall_Some parse stringify records); [done|].
  apply Forall_forall. intros r _. apply parse_stringify.
Qed.

Lemma scan_step_decoded {St} p b batch rest
    (visitor : list Record → St → M (bool * St)) s w :
  mapM parse b = Some batch →
  scan p (b :: rest) visitor s w =
    (visitor batch s ≫= λ '(stop, s'),
       if (stop : bool) then mret s' else scan p rest visitor s')
      (World (files w) (S (clock w)) (log w ++ [Io (ReadBatch p) true])).
Proof.
  intros Hb. simpl. unfold mbind at 1, M_bind at 1.
  rewrite (perform_ok _ _ _ (files w)) by done.
  unfold mbind at 1, M_bind at 1. unfold decode. by rewrite Hb.
Qed.

Lemma encode_batches_decoded rbs :
  Forall2 (λ b rb, mapM parse b = Some rb) (encode_batches rbs) rbs.
Proof.
  induction rbs as [|rb rbs IH]; constructor; [|exact IH].
  apply mapM_fmap_Forall_Some, Forall_forall. intros r _. apply parse_stringify.
Qed.

Lemma read_as_scan_decoded w records :
  mapM parse (content filePath w) = Some records →
  ∃ bs rbs,
    Forall2 (λ b rb, mapM parse b = Some rb) bs rbs ∧ concat rbs = records ∧
    ∀ St (visitor : list Record → St → M (bool * St)) s,
      read filePath visitor s w = scan filePath bs visitor s w.
Proof.
  unfold content, read. intros H. destruct (files w !! filePath) as [lines|].
  - simpl in H. destruct (split_decoded (chunk lines) records) as (rbs & E & ?).
    { by rewrite chunk_concat. }
    by exists (chunk lines), rbs.
  - exists [], []. split; [constructor|]. simpl in H. split; [|done].
    by injection H.
Qed.

Lemma scan_step {St} p batch rest (visitor : list Record → St → M (bool * St)) s w :
  scan p (encode_batches (batch :: rest)) visitor s w =
    (visitor batch s ≫= λ '(stop, s'),
       if (stop : bool) then mret s'
       else scan p (encode_batches rest) visitor s')
      (World (files w) (S (clock w)) (log w ++ [Io (ReadBatch p) true])).
Proof.
  simpl. unfold mbind at 1, M_bind at 1.
  rewrite (perform_ok _ _ _ (files w)) by done.
  unfold mbind at 1, M_bind at 1. by rewrite decode_stringify.
Qed.

Lemma read_as_scan w records :
  content filePath w = stringify <$> records →
  ∃ rbs, concat rbs = records ∧
    ∀ St (visitor : list Record → St → M (bool * St)) s,
      read filePath visitor s w =
      scan filePath (encode_batches rbs) visitor s w.
Proof.
  unfold content, read. intros H. destruct (files w !! filePath) as [lines|].
  - simpl in H. destruct (split_batches (chunk lines) records) as (rbs & E & ?).
    { by rewrite chunk_concat. }
    exists rbs. split; [done|]. intros. by rewrite E.
  - exists []. split; [|done]. simpl in H. symmetry in H.
    by apply fmap_nil_inv in H.
Qed.

Lemma findOne_scan matchFn rbs w :
  ∃ c evs,
    scan filePath (encode_batches rbs) (findOne_visitor matchFn) (None, false) w =
      (Ok (List.find matchFn (concat rbs),
           bool_decide (is_Some (List.find matchFn (concat rbs)))),
       World (files w) c (log w ++ evs)) ∧
    matchFn_calls evs = through_first matchFn (concat rbs).
Proof.
  revert w. induction rbs as [|b rest IH]; intros w.
  - exists (clock w), []. simpl. unfold mret, M_ret.
    rewrite app_nil_r. by destruct w.
  - rewrite scan_step. unfold mbind, M_bind. rewrite findOne_visitor_run.
    simpl. destruct (List.find matchFn b) as [r|] eqn:Hb.
    + destruct (find_app_Some matchFn b (concat rest) r Hb) as [-> ->].
      eexists _, _. rewrite <-app_assoc. split; [done|].
      simpl. by rewrite matchFn_calls_MatchFn.
    + destruct (find_app_None matchFn b (concat rest) Hb) as [-> ->].
      match goal with |- context [scan _ _ _ _ ?w1] =>
        destruct (IH w1) as (c & evs & -> & Hc) end.
      simpl. eexists _, _. rewrite <-!app_assoc. split; [done|].
      simpl. rewrite matchFn_calls_app, matchFn_calls_MatchFn, Hc.
      f_equal. induction b as [|x b IHb]; [done|]. simpl in *.
      destruct (matchFn x); [done|]. f_equal. by apply IHb.
Qed.

Lemma find_scan matchFn rbs found w :
  ∃ c evs,
    scan filePath (encode_batches rbs) (find_visitor matchFn) found w =
      (Ok (found ++ filter (λ r, matchFn r = true) (concat rbs)),
       World (files w) c (log w ++ evs)).
Proof.
  revert found w. induction rbs as [|b rest IH]; intros found w.
  - exists (clock w), []. simpl. unfold mret, M_ret.
    rewrite !app_nil_r. by destruct w.
  - rewrite scan_step. unfold mbind, M_bind. rewrite find_visitor_run.
    match goal with |- context [scan _ _ _ ?f ?w1] =>
      destruct (IH f w1) as (c & evs & ->) end.
    simpl. eexists _, _. by rewrite filter_app, <-!app_assoc.
Qed.

Lemma appendText_run p lines w :
  appendText p lines w =
    (Ok (),
     if reaches_file lines then
       World (<[p := content p w ++ lines]> (files w)) (S (clock w))
         (log w ++ [Io (AppendFile p lines) true])
     else w).
Proof.
  unfold appendText. destruct (reaches_file lines); [|done].
  by apply perform_ok.
Qed.

Lemma appendText_ok p lines w :
  lines ≠ [] →
  appendText p lines w =
    (Ok (), World (<[p := content p w ++ lines]> (files w)) (S (clock w))
              (log w ++ [Io (AppendFile p lines) true])).
Proof. intros H. by rewrite appendText_run, reaches_file_nonempty. Qed.

Lemma append_run p records w :
  append p records w =
    (Ok (),
     if written records then
       World (<[p := content p w ++ (stringify <$> records)]> (files w))
         (S (clock w))
         (log w ++ [Io (AppendFile p (stringify <$> records)) true])
     else w).
Proof. unfold append. by rewrite appendText_run, reaches_file_stringify. Qed.

Lemma matchFn_calls_update_calls matchFn batch :
  matchFn_calls (update_calls matchFn batch) = batch.
Proof.
  induction batch as [|r rest IH]; [done|].
  change (update_calls matchFn (r :: rest)) with
    ((if matchFn r then [MatchFn r; UpdateFn r] else [MatchFn r])
       ++ update_calls matchFn rest).
  rewrite matchFn_calls_app, IH. by destruct (matchFn r).
Qed.

Lemma update_durable_visitor_run matchFn updateFn tmp batch updated w :
  update_durable_visitor matchFn updateFn tmp batch updated w =
    (Ok (false, updated ++ (updateFn <$> filter (λ r, matchFn r = true) batch)),
     if written batch then
       World
         (<[tmp := content tmp w ++
                   (stringify <$> (updated_record matchFn updateFn <$> batch))]>
            (files w))
         (S (clock w))
         (log w ++ update_calls matchFn batch ++
            [Io (AppendFile tmp
                   (stringify <$> (updated_record matchFn updateFn <$> batch)))
                true])
     else World (files w) (clock w) (log w ++ update_calls matchFn batch)).
Proof.
  unfold update_durable_visitor, mbind, M_bind.
  rewrite update_map_run, append_run, written_fmap.
  destruct (written batch); simpl; [|done]. by rewrite <-app_assoc.
Qed.

Lemma delete_durable_visitor_run matchFn tmp batch kept w :
  let kept_batch := filter (λ r, matchFn r = false) batch in
  delete_durable_visitor matchFn tmp batch kept w =
    (Ok (false, kept ++ kept_batch),
     if bool_decide (kept_batch ≠ []) then
       World (<[tmp := content tmp w ++ (stringify <$> kept_batch)]> (files w))
         (S (clock w))
         (log w ++ (MatchFn <$> batch) ++
            [Io (AppendFile tmp (stringify <$> kept_batch)) true])
     else World (files w) (clock w) (log w ++ (MatchFn <$> batch))).
Proof.
  simpl. unfold delete_durable_visitor, mbind, M_bind.
  rewrite delete_filter_run.
  destruct (filter (λ r, matchFn r = false) batch) as [|k kb]; [done|].
  rewrite bool_decide_eq_true_2 by (simpl; lia).
  rewrite append_run, written_nonempty by done. simpl. by rewrite <-app_assoc.
Qed.

Lemma delete_unconditional_visitor_run matchFn tmp batch kept w :
  let kept_batch := filter (λ r, matchFn r = false) batch in
  delete_unconditional_visitor matchFn tmp batch kept w =
    (Ok (false, kept ++ kept_batch),
     if written kept_batch then
       World (<[tmp := content tmp w ++ (stringify <$> kept_batch)]> (files w))
         (S (clock w))
         (log w ++ (MatchFn <$> batch) ++
            [Io (AppendFile tmp (stringify <$> kept_batch)) true])
     else World (files w) (clock w) (log w ++ (MatchFn <$> batch))).
Proof.
  simpl. unfold delete_unconditional_visitor, mbind, M_bind.
  rewrite delete_filter_run, append_run.
  destruct (written _); simpl; [|done]. by rewrite <-app_assoc.
Qed.

(** The scan of the durable [update] over batches that decode to [rbs],
    whatever the text of their lines. *)
Lemma update_scan_decoded matchFn updateFn tmp bs rbs updated w :
  Forall2 (λ b rb, mapM parse b = Some rb) bs rbs →
  ∃ c evs,
    scan filePath bs (update_durable_visitor matchFn updateFn tmp) updated w =
      (Ok (updated ++ (updateFn <$> filter (λ r, matchFn r = true) (concat rbs))),
       World
         (appended tmp
            (stringify <$> (updated_record matchFn updateFn <$> concat rbs))
            (existsb written rbs) (files w))
         c (log w ++ evs)) ∧
    matchFn_calls evs = concat rbs.
Proof.
  intros Hdec. revert updated w.
  induction Hdec as [|b rb bs rbs Hb _ IH]; intros updated w.
  - exists (clock w), []. simpl. unfold mret, M_ret.
    rewrite !app_nil_r. by destruct w.
  - rewrite (scan_step_decoded _ _ _ _ _ _ _ Hb). unfold mbind, M_bind.
    rewrite update_durable_visitor_run. simpl existsb.
    destruct (written rb) eqn:Hw.
    + match goal with |- context [scan _ _ _ ?u ?w1] =>
        destruct (IH u w1) as (c & evs & -> & Hc) end.
      simpl. eexists _, _. unfold content. simpl.
      rewrite appended_after.
      * rewrite filter_app, !fmap_app, <-!app_assoc. split; [done|].
        rewrite !matchFn_calls_app, matchFn_calls_update_calls, Hc. done.
      * intros Hr. by rewrite (none_written _ Hr).
    + rewrite (written_false _ Hw).
      match goal with |- context [scan _ _ _ ?u ?w1] =>
        destruct (IH u w1) as (c & evs & -> & Hc) end.
      simpl. eexists _, _. rewrite app_nil_r, <-!app_assoc.
      split; [done|]. by rewrite !matchFn_calls_app, Hc.
Qed.

Lemma update_scan matchFn updateFn tmp rbs updated w :
  ∃ c evs,
    scan filePath (encode_batches rbs)
      (update_durable_visitor matchFn updateFn tmp) updated w =
      (Ok (updated ++ (updateFn <$> filter (λ r, matchFn r = true) (concat rbs))),
       World
         (appended tmp
            (stringify <$> (updated_record matchFn updateFn <$> concat rbs))
            (existsb written rbs) (files w))
         c (log w ++ evs)) ∧
    matchFn_calls evs = concat rbs.
Proof. apply update_scan_decoded, encode_batches_decoded. Qed.

Lemma delete_scan matchFn tmp rbs kept w :
  let kept_all := filter (λ r, matchFn r = false) (concat rbs) in
  ∃ c evs,
    scan filePath (encode_batches rbs)
      (delete_durable_visitor matchFn tmp) kept w =
      (Ok (kept ++ kept_all),
       World
         (appended tmp (stringify <$> kept_all)
            (bool_decide (kept_all ≠ [])) (files w))
         c (log w ++ evs)) ∧
    matchFn_calls evs = concat rbs ∧
    (kept_all = [] →
       filter (λ op, is_write op = true) (io_attempts evs) = []).
Proof.
  simpl. revert kept w. induction rbs as [|b rest IH]; intros kept w.
  - exists (clock w), []. simpl. unfold mret, M_ret.
    rewrite !app_nil_r. by destruct w.
  - rewrite scan_step. unfold mbind, M_bind.
    rewrite delete_durable_visitor_run. cbv zeta.
    simpl concat. rewrite filter_app.
    set (kb := filter (λ r, matchFn r = false) b).
    set (kr := filter (λ r, matchFn r = false) (concat rest)).
    destruct (bool_decide_reflect (kb ≠ [])) as [Hkb|Hkb].
    + match goal with |- context [scan _ _ _ ?u ?w1] =>
        destruct (IH u w1) as (c & evs & -> & Hc & Hw) end.
      fold kr. simpl. eexists _, _. unfold content. simpl.
      rewrite appended_after.
      * rewrite bool_decide_eq_true_2 by (by intros [? ?]%app_eq_nil).
        unfold appended. rewrite fmap_app, <-!app_assoc.
        split; [done|]. split.
        -- by rewrite !matchFn_calls_app, matchFn_calls_MatchFn, Hc.
        -- by intros [? ?]%app_eq_nil.
      * intros Hr. apply bool_decide_eq_false in Hr.
        destruct kr; [done|]. by destruct Hr.
    + assert (kb = []) as -> by (destruct kb; [done|by destruct Hkb]).
      match goal with |- context [scan _ _ _ ?u ?w1] =>
        destruct (IH u w1) as (c & evs & -> & Hc & Hw) end.
      fold kr. simpl. eexists _, _. rewrite app_nil_r, <-!app_assoc.
      split; [done|]. split.
      * by rewrite !matchFn_calls_app, matchFn_calls_MatchFn, Hc.
      * intros Hk. rewrite !io_attempts_app, !filter_app, io_attempts_MatchFn.
        by rewrite Hw.
Qed.

Lemma delete_unconditional_scan matchFn tmp rbs kept w :
  let kept_all := filter (λ r, matchFn r = false) (concat rbs) in
  ∃ c evs touched,
    scan filePath (encode_batches rbs)
      (delete_unconditional_visitor matchFn tmp) kept w =
      (Ok (kept ++ kept_all),
       World (appended tmp (stringify <$> kept_all) touched (files w))
         c (log w ++ evs)) ∧
    (touched = false → kept_all = []).
Proof.
  simpl. revert kept w. induction rbs as [|b rest IH]; intros kept w.
  - exists (clock w), [], false. simpl. unfold mret, M_ret.
    rewrite !app_nil_r. by destruct w.
  - rewrite scan_step. unfold mbind, M_bind.
    rewrite delete_unconditional_visitor_run. cbv zeta.
    simpl concat. rewrite filter_app.
    set (kb := filter (λ r, matchFn r = false) b).
    set (kr := filter (λ r, matchFn r = false) (concat rest)).
    destruct (written kb) eqn:Hkb.
    + match goal with |- context [scan _ _ _ ?u ?w1] =>
        destruct (IH u w1) as (c & evs & touched & -> & Ht) end.
      fold kr in Ht |- *. simpl. exists c. eexists _, true.
      unfold content. simpl. rewrite appended_after by (by intros ->%Ht).
      unfold appended. by rewrite fmap_app, <-!app_assoc.
    + rewrite (written_false _ Hkb).
      match goal with |- context [scan _ _ _ ?u ?w1] =>
        destruct (IH u w1) as (c & evs & touched & -> & Ht) end.
      fold kr in Ht |- *. simpl. exists c. eexists _, touched.
      by rewrite app_nil_r, <-!app_assoc.
Qed.

Lemma durable_task_run {A} (rewrite_phase : string → M A) w a fs1 c l1 :
  rewrite_phase tempPath (task_start w) = (Ok a, World fs1 c l1) →
  temporaryFileTask
    (λ tmp, x ← rewrite_phase tmp; rename tmp filePath;; mret x) w =
    match fs_rename tempPath filePath fs1 with
    | Some fs2 =>
        (Ok a,
         World (fs_remove tempPath fs2) (S c)
           ((l1 ++ [Io (Rename tempPath filePath) true])
              ++ [Io (Remove tempPath) true]))
    | None =>
        (Err (IOFailure (Rename tempPath filePath)),
         World (fs_remove tempPath fs1) (S c)
           ((l1 ++ [Io (Rename tempPath filePath) false])
              ++ [Io (Remove tempPath) true]))
    end.
Proof.
  intros Hrun. unfold temporaryFileTask, mbind, M_bind. rewrite Hrun.
  unfold rename. destruct (fs_rename tempPath filePath fs1) as [fs2|] eqn:Hmv.
  - by rewrite (perform_ok _ _ _ fs2).
  - by rewrite perform_refused.
Qed.

Lemma find_result_on_batches matchFn batches found w1 w2 :
  (scan filePath batches (find_visitor matchFn) found w1).1 =
  (scan filePath batches (find_visitor matchFn) found w2).1.
Proof.
  revert found w1 w2. induction batches as [|b rest IH]; intros found w1 w2.
  - done.
  - simpl. unfold mbind, M_bind.
    rewrite !(perform_ok _ _ _ (files _)) by done.
    unfold decode. destruct (mapM parse b) as [batch|]; [|done].
    rewrite !find_visitor_run. apply IH.
Qed.

Lemma find_result_on_files matchFn w1 w2 :
  files w1 = files w2 → (find matchFn w1).1 = (find matchFn w2).1.
Proof.
  intros Hfs. unfold find, read. rewrite Hfs.
  destruct (files w2 !! filePath); [|done]. apply find_result_on_batches.
Qed.

Lemma count_result w : (count w).1 = Ok (length (content filePath w)).
Proof.
  unfold count, jsonl_count, mbind, M_bind.
  by rewrite (perform_ok _ _ _ (files w)).
Qed.

Lemma lookup_task_start w :
  tempPath ≠ filePath → files (task_start w) !! filePath = files w !! filePath.
Proof.
  intros Hne. unfold task_start. destruct precreated; [|done].
  simpl. by rewrite lookup_insert_ne.
Qed.

Lemma content_task_start w :
  tempPath ≠ filePath → content filePath (task_start w) = content filePath w.
Proof. intros Hne. unfold content. by rewrite lookup_task_start. Qed.

Lemma temp_at_task_start w :
  files w !! tempPath = None →
  files (task_start w) !! tempPath = if precreated then Some [] else None.
Proof.
  intros Hfresh. unfold task_start. destruct precreated; [|done].
  simpl. by rewrite lookup_insert_eq.
Qed.

(** What a durable rewrite amounts to once its scan has gone through:
    the rename succeeds exactly when the temporary file exists by then. *)
Lemma durable_outcome {A} (rewrite_phase : string → M A) w a lines touched c evs :
  tempPath ≠ filePath →
  files w !! tempPath = None →
  (touched = false → lines = []) →
  rewrite_phase tempPath (task_start w) =
    (Ok a, World (appended tempPath lines touched (files (task_start w)))
             c (log w ++ evs)) →
  let run :=
    temporaryFileTask
      (λ tmp, x ← rewrite_phase tmp; rename tmp filePath;; mret x) w in
  if touched || precreated then
    run.1 = Ok a ∧
    files run.2 !! filePath = Some lines ∧
    log run.2 = (log w ++ evs) ++
      [Io (Rename tempPath filePath) true; Io (Remove tempPath) true]
  else
    run.1 = Err (IOFailure (Rename tempPath filePath)) ∧
    files run.2 !! filePath = files w !! filePath ∧
    log run.2 = (log w ++ evs) ++
      [Io (Rename tempPath filePath) false; Io (Remove tempPath) true].
Proof.
  intros Hne Hfresh Hlines Hrun. simpl.
  rewrite (durable_task_run _ _ _ _ _ _ Hrun).
  pose proof (temp_at_task_start w Hfresh) as Htmp.
  assert ((appended tempPath lines touched (files (task_start w))) !! tempPath
          = if touched || precreated then Some lines else None) as Hlook.
  { unfold appended. destruct touched; simpl.
    - rewrite lookup_insert_eq, Htmp. by destruct precreated.
    - rewrite Htmp, Hlines by done. by destruct precreated. }
  destruct (touched || precreated) eqn:Hexists.
  - destruct (fs_rename _ _ _) as [fs2|] eqn:Hmv.
    + simpl. rewrite <-app_assoc. split; [done|]. split; [|reflexivity].
      rewrite fs_remove_other by done.
      by rewrite (fs_rename_dst _ _ _ _ Hmv).
    + unfold fs_rename in Hmv. by rewrite Hlook in Hmv.
  - rewrite fs_rename_missing by done. simpl. rewrite <-app_assoc.
    split; [done|]. split; [|reflexivity].
    rewrite fs_remove_other by done.
    apply orb_false_iff in Hexists as [-> _]. simpl.
    by apply lookup_task_start.
Qed.

(** C4. On a store holding [records], whatever the batching, [findOne]
    returns the first record in file order that satisfies the predicate,
    and the not-found value, not an error, when none does. *)
Theorem findOne_returns_first_match matchFn records w :
  content filePath w = stringify <$> records →
  (findOne matchFn w).1 = Ok (List.find matchFn records).
Proof.
  intros Hc. destruct (read_as_scan w records Hc) as (rbs & <- & Hread).
  unfold findOne, mbind, M_bind. rewrite Hread.
  by destruct (findOne_scan matchFn rbs w) as (c & evs & -> & _).
Qed.

(** C3, as the code has it. Whatever the batching, [findOne] invokes the
    predicate on the records up to and including the first match, in file
    order, and on no record after it: the visitor returns from inside its
    loop, so stopping is item-granular. *)
Theorem findOne_evaluates_through_first_match matchFn records w :
  content filePath w = stringify <$> records →
  matchFn_calls (log (findOne matchFn w).2) =
    matchFn_calls (log w) ++ through_first matchFn records.
Proof.
  intros Hc. destruct (read_as_scan w records Hc) as (rbs & <- & Hread).
  unfold findOne, mbind, M_bind. rewrite Hread.
  destruct (findOne_scan matchFn rbs w) as (c & evs & -> & Hcalls).
  simpl. by rewrite matchFn_calls_app, Hcalls.
Qed.

(** C2, as the code has it. On a backing file that is valid JSONL, the
    durable [update] evaluates the predicate on every record, and the
    file it leaves holds as many records as before, in the same
    positions: the serialization of [updateFn r] where [r] matched and
    the serialization of [r] itself where it did not, which is the very
    line that was there whenever that line was the serialization of its
    record. *)
Theorem update_durable_in_place matchFn updateFn records w :
  tempPath ≠ filePath →
  files w !! tempPath = None →
  mapM parse (content filePath w) = Some records →
  let w' := (update matchFn updateFn true w).2 in
  matchFn_calls (log w') = matchFn_calls (log w) ++ records ∧
  content filePath w' =
    stringify <$> (updated_record matchFn updateFn <$> records) ∧
  length (content filePath w') = length (content filePath w) ∧
  (∀ i r, records !! i = Some r →
     content filePath w' !! i =
       Some (stringify (if matchFn r then updateFn r else r))) ∧
  (∀ i r, records !! i = Some r → matchFn r = false →
     content filePath w !! i = Some (stringify r) →
     content filePath w' !! i = content filePath w !! i).
Proof.
  intros Hne Hfresh Hc. cbv zeta.
  assert (matchFn_calls (log (update matchFn updateFn true w).2) =
            matchFn_calls (log w) ++ records ∧
          content filePath (update matchFn updateFn true w).2 =
            stringify <$> (updated_record matchFn updateFn <$> records))
    as [Hcalls Hcontent].
  { pose proof Hc as Hc0. rewrite <-(content_task_start w Hne) in Hc0.
    destruct (read_as_scan_decoded _ records Hc0)
      as (bs & rbs & Hdec & <- & Hread).
    destruct (update_scan_decoded matchFn updateFn tempPath bs rbs []
                (task_start w) Hdec) as (c & evs & Hscan & Hcalls).
    assert (log (task_start w) = log w) as Hlog.
    { unfold task_start. by destruct precreated. }
    rewrite Hlog in Hscan.
    assert (update_rewrite matchFn updateFn tempPath (task_start w) = _)
      as Hrw by (unfold update_rewrite; rewrite Hread; exact Hscan).
    assert (existsb written rbs = false →
            stringify <$> (updated_record matchFn updateFn <$> concat rbs) = [])
      as Hlines.
    { intros Hr. by rewrite (none_written _ Hr). }
    pose proof (durable_outcome (update_rewrite matchFn updateFn) w _ _ _ _ _
                  Hne Hfresh Hlines Hrw) as Hout.
    simpl in Hout. unfold update.
    destruct (existsb written rbs || precreated) eqn:Hexists.
    - destruct Hout as (_ & Hfile & ->).
      unfold content. rewrite Hfile. split; [|done].
      rewrite !matchFn_calls_app, Hcalls. simpl. by rewrite app_nil_r.
    - destruct Hout as (_ & Hfile & ->).
      apply orb_false_iff in Hexists as [Hr _].
      rewrite (none_written _ Hr) in *.
      apply length_mapM in Hc. apply nil_length_inv in Hc.
      unfold content in *. rewrite Hfile, Hc. split; [|done].
      rewrite !matchFn_calls_app, Hcalls. simpl. by rewrite app_nil_r. }
  split; [done|]. split; [done|]. rewrite Hcontent. split.
  - rewrite !length_fmap. symmetry. by apply (length_mapM parse).
  - split.
    + intros i r Hi. rewrite !list_lookup_fmap, Hi. done.
    + intros i r Hi Hm ->. rewrite !list_lookup_fmap, Hi. simpl.
      unfold updated_record. by rewrite Hm.
Qed.

Lemma filter_always (l : list Record) :
  filter (λ _ : Record, true = true) l = l.
Proof.
  induction l as [|r l IH]; [done|]. rewrite filter_cons. simpl.
  by rewrite IH.
Qed.

Lemma find_run matchFn records w :
  content filePath w = stringify <$> records →
  (find matchFn w).1 = Ok (filter (λ r, matchFn r = true) records).
Proof.
  intros Hc. destruct (read_as_scan w records Hc) as (rbs & <- & Hread).
  unfold find. rewrite Hread.
  by destruct (find_scan matchFn rbs [] w) as (c & evs & ->).
Qed.

(** Appending to a store that holds [old]: a later [find] sees the old
    records followed by the new ones. *)
Lemma add_then_find_appends matchFn old records w :
  content filePath w = stringify <$> old →
  (add_then_find records matchFn w).1 =
    Ok (filter (λ r, matchFn r = true) (old ++ records)).
Proof.
  intros Hc. unfold add_then_find, add, mbind, M_bind. simpl.
  destruct records as [|r records].
  - simpl. rewrite app_nil_r. by apply find_run.
  - rewrite bool_decide_eq_false_2 by done.
    unfold add_items, mbind, M_bind. rewrite appendText_ok by done. simpl.
    apply find_run. unfold content in *. simpl.
    rewrite lookup_insert_eq. simpl. by rewrite Hc, fmap_app.
Qed.

(** C6. On a store with no record yet, [add(R, true)] followed by [find]
    with the always-true predicate returns exactly [R], in order. *)
Theorem add_then_find_roundtrip records w :
  content filePath w = [] →
  (add_then_find records (λ _, true) w).1 = Ok records.
Proof.
  intros Hc.
  rewrite (add_then_find_appends (λ _, true) [] records w) by done.
  simpl. by rewrite filter_always.
Qed.

Lemma delete_transient_scan matchFn rbs kept w :
  ∃ c evs,
    scan filePath (encode_batches rbs) (delete_transient_visitor matchFn) kept w =
      (Ok (kept ++ filter (λ r, matchFn r = false) (concat rbs)),
       World (files w) c (log w ++ evs)).
Proof.
  revert kept w. induction rbs as [|b rest IH]; intros kept w.
  - exists (clock w), []. simpl. unfold mret, M_ret.
    rewrite !app_nil_r. by destruct w.
  - rewrite scan_step. unfold mbind, M_bind.
    rewrite delete_transient_visitor_run.
    match goal with |- context [scan _ _ _ ?f ?w1] =>
      destruct (IH f w1) as (c & evs & ->) end.
    simpl. eexists _, _. by rewrite filter_app, <-!app_assoc.
Qed.

(** The transient [delete] returns the kept records, in file order, and
    leaves the file system as it was. *)
Lemma delete_transient_returns_kept matchFn records w :
  content filePath w = stringify <$> records →
  (delete matchFn false w).1 = Ok (filter (λ r, matchFn r = false) records) ∧
  files (delete matchFn false w).2 = files w.
Proof.
  intros Hc. split.
  - destruct (read_as_scan w records Hc) as (rbs & <- & Hread).
    unfold delete. rewrite Hread.
    by destruct (delete_transient_scan matchFn rbs [] w) as (c & evs & ->).
  - by injection (storage_transient_delete matchFn w).
Qed.

Lemma delete_rewrite_run matchFn records w :
  tempPath ≠ filePath →
  content filePath w = stringify <$> records →
  let kept := filter (λ r, matchFn r = false) records in
  ∃ c evs,
    delete_rewrite matchFn tempPath (task_start w) =
      (Ok kept,
       World (appended tempPath (stringify <$> kept) (bool_decide (kept ≠ []))
                (files (task_start w)))
         c (log w ++ evs)) ∧
    matchFn_calls evs = records ∧
    (kept = [] → filter (λ op, is_write op = true) (io_attempts evs) = []).
Proof.
  intros Hne Hc. cbv zeta. rewrite <-(content_task_start w Hne) in Hc.
  destruct (read_as_scan _ records Hc) as (rbs & <- & Hread).
  destruct (delete_scan matchFn tempPath rbs [] (task_start w))
    as (c & evs & Hscan & Hcalls & Hwrites).
  exists c, evs. unfold delete_rewrite. rewrite Hread, Hscan.
  assert (log (task_start w) = log w) as ->.
  { unfold task_start. by destruct precreated. }
  done.
Qed.

(** The durable [delete], once its scan has gone through: it returns the
    kept records and leaves exactly them in the file when the temporary
    file exists at the rename, that is, when a record was kept or the
    task had created the file; otherwise the rename is refused, the call
    fails and the backing file stays as it was. *)
Lemma delete_durable_run matchFn records w :
  tempPath ≠ filePath →
  files w !! tempPath = None →
  content filePath w = stringify <$> records →
  let kept := filter (λ r, matchFn r = false) records in
  if bool_decide (kept ≠ []) || precreated then
    (delete matchFn true w).1 = Ok kept ∧
    files (delete matchFn true w).2 !! filePath = Some (stringify <$> kept)
  else
    (delete matchFn true w).1 = Err (IOFailure (Rename tempPath filePath)) ∧
    files (delete matchFn true w).2 !! filePath = files w !! filePath.
Proof.
  intros Hne Hfresh Hc. cbv zeta.
  destruct (delete_rewrite_run matchFn records w Hne Hc)
    as (c & evs & Hrw & _ & _).
  set (kept := filter (λ r, matchFn r = false) records) in *.
  assert (bool_decide (kept ≠ []) = false → stringify <$> kept = [])
    as Hlines.
  { intros Hr. apply bool_decide_eq_false in Hr.
    destruct kept; [done|]. by destruct Hr. }
  pose proof (durable_outcome (delete_rewrite matchFn) w _ _ _ _ _
                Hne Hfresh Hlines Hrw) as Hout.
  simpl in Hout. unfold delete.
  destruct (bool_decide (kept ≠ []) || precreated);
    by destruct Hout as (? & ? & _).
Qed.

(** The variant that appends every batch, when a record is kept or the
    task had created the temporary file: the rename goes through. *)
Lemma delete_unconditional_run matchFn records w :
  tempPath ≠ filePath →
  files w !! tempPath = None →
  content filePath w = stringify <$> records →
  let kept := filter (λ r, matchFn r = false) records in
  kept ≠ [] ∨ precreated = true →
  (delete_unconditional matchFn w).1 = Ok kept ∧
  files (delete_unconditional matchFn w).2 !! filePath =
    Some (stringify <$> kept).
Proof.
  intros Hne Hfresh Hc. cbv zeta. intros Hex.
  pose proof Hc as Hc0. rewrite <-(content_task_start w Hne) in Hc0.
  destruct (read_as_scan _ records Hc0) as (rbs & <- & Hread).
  destruct (delete_unconditional_scan matchFn tempPath rbs [] (task_start w))
    as (c & evs & touched & Hscan & Ht).
  assert (log (task_start w) = log w) as Hlog.
  { unfold task_start. by destruct precreated. }
  rewrite Hlog in Hscan. simpl in Hscan.
  set (kept := filter (λ r, matchFn r = false) (concat rbs)) in *.
  assert (touched = false → stringify <$> kept = []) as Hlines.
  { intros Hr. by rewrite (Ht Hr). }
  assert (delete_unconditional_rewrite matchFn tempPath (task_start w) = _)
    as Hrw by (unfold delete_unconditional_rewrite; rewrite Hread; exact Hscan).
  pose proof (durable_outcome (delete_unconditional_rewrite matchFn)
                w _ _ _ _ _ Hne Hfresh Hlines Hrw) as Hout.
  simpl in Hout.
  assert (touched || precreated = true) as Hexists.
  { destruct Hex as [Hk| ->]; [|by rewrite orb_true_r].
    destruct touched; [done|]. destruct Hk. by apply Ht. }
  rewrite Hexists in Hout. unfold delete_unconditional.
  by destruct Hout as (? & ? & _).
Qed.

(** X2. Skipping the append of an empty kept batch changes nothing as
    long as some record is kept or the temporary file exists from the
    start. *)
Theorem delete_skip_agrees matchFn records w :
  tempPath ≠ filePath →
  files w !! tempPath = None →
  content filePath w = stringify <$> records →
  filter (λ r, matchFn r = false) records ≠ [] ∨ precreated = true →
  (delete matchFn true w).1 = (delete_unconditional matchFn w).1 ∧
  files (delete matchFn true w).2 !! filePath =
    files (delete_unconditional matchFn w).2 !! filePath.
Proof.
  intros Hne Hfresh Hc Hex.
  pose proof (delete_durable_run matchFn records w Hne Hfresh Hc) as Hd.
  cbv zeta in Hd.
  assert (bool_decide (filter (λ r, matchFn r = false) records ≠ [])
            || precreated = true) as Hexists.
  { destruct Hex as [Hk| ->]; [|by rewrite orb_true_r].
    by rewrite bool_decide_eq_true_2. }
  rewrite Hexists in Hd. destruct Hd as [-> ->].
  by destruct (delete_unconditional_run matchFn records w Hne Hfresh Hc Hex)
    as [-> ->].
Qed.

(** X3. Deleting every record of a file: the scan issues no write at
    all, the rename is attempted all the same, and it goes through
    exactly when the temporary file exists. *)
Theorem delete_all_run matchFn records w :
  tempPath ≠ filePath →
  files w !! tempPath = None →
  content filePath w = stringify <$> records →
  Forall (λ r, matchFn r = true) records →
  ∃ evs,
    filter (λ op, is_write op = true) (io_attempts evs) = [] ∧
    log (delete matchFn true w).2 =
      (log w ++ evs) ++
        [Io (Rename tempPath filePath) precreated; Io (Remove tempPath) true] ∧
    (delete matchFn true w).1 =
      if precreated then Ok []
      else Err (IOFailure (Rename tempPath filePath)).
Proof.
  intros Hne Hfresh Hc Hall.
  destruct (delete_rewrite_run matchFn records w Hne Hc)
    as (c & evs & Hrw & _ & Hwrites). cbv zeta in *.
  assert (filter (λ r, matchFn r = false) records = []) as Hkept.
  { clear -Hall. induction Hall as [|r l Hr _ IH]; [done|].
    rewrite filter_cons, IH. by rewrite decide_False by congruence. }
  rewrite Hkept in *.
  pose proof (durable_outcome (delete_rewrite matchFn) w _ _ _ _ _
                Hne Hfresh (λ _, eq_refl) Hrw) as Hout.
  simpl in Hout. exists evs. split; [by apply Hwrites|]. unfold delete.
  destruct precreated; by destruct Hout as (? & _ & ?).
Qed.

(** X1. Whenever some record is kept, or the temporary file exists from
    the start, [delete] returns the kept records in both modes; the
    transient mode leaves the file system alone and the durable mode
    leaves exactly the kept records in the file. *)
Theorem delete_returns_kept_when_some_kept matchFn records w mutateDb :
  tempPath ≠ filePath →
  files w !! tempPath = None →
  content filePath w = stringify <$> records →
  filter (λ r, matchFn r = false) records ≠ [] ∨ precreated = true →
  (delete matchFn mutateDb w).1 =
    Ok (filter (λ r, matchFn r = false) records) ∧
  (if mutateDb
   then content filePath (delete matchFn mutateDb w).2 =
          stringify <$> filter (λ r, matchFn r = false) records
   else files (delete matchFn mutateDb w).2 = files w).
Proof.
  intros Hne Hfresh Hc Hex. destruct mutateDb.
  - pose proof (delete_durable_run matchFn records w Hne Hfresh Hc) as Hd.
    cbv zeta in Hd.
    assert (bool_decide (filter (λ r, matchFn r = false) records ≠ [])
              || precreated = true) as Hexists.
    { destruct Hex as [Hk| ->]; [|by rewrite orb_true_r].
      by rewrite bool_decide_eq_true_2. }
    rewrite Hexists in Hd. destruct Hd as [-> Hfile].
    split; [done|]. unfold content. by rewrite Hfile.
  - by apply delete_transient_returns_kept.
Qed.

(** ** More on the read operations and on [add] *)

Lemma find_is_head_filter (f : Record → bool) (l : list Record) :
  List.find f l = head (filter (λ r, f r = true) l).
Proof.
  induction l as [|r l IH]; [done|]. simpl. rewrite filter_cons.
  destruct (f r); simpl; [done|exact IH].
Qed.

Lemma find_scan_log matchFn rbs found w :
  ∃ c evs,
    scan filePath (encode_batches rbs) (find_visitor matchFn) found w =
      (Ok (found ++ filter (λ r, matchFn r = true) (concat rbs)),
       World (files w) c (log w ++ evs)) ∧
    matchFn_calls evs = concat rbs ∧
    io_attempts evs = replicate (length rbs) (ReadBatch filePath).
Proof.
  revert found w. induction rbs as [|b rest IH]; intros found w.
  - exists (clock w), []. simpl. unfold mret, M_ret.
    rewrite !app_nil_r. by destruct w.
  - rewrite scan_step. unfold mbind, M_bind. rewrite find_visitor_run.
    match goal with |- context [scan _ _ _ ?f ?w1] =>
      destruct (IH f w1) as (c & evs & -> & Hcalls & Hio) end.
    simpl. eexists _, _. rewrite filter_app, <-!app_assoc.
    split; [done|]. split.
    + by rewrite !matchFn_calls_app, matchFn_calls_MatchFn, Hcalls.
    + rewrite !io_attempts_app, io_attempts_MatchFn, Hio. done.
Qed.

(** X4. [find] returns every record that satisfies the predicate, in file
    order, whatever the batching; it never stops early: the predicate is
    invoked on each record of the file, once and in file order. *)
Theorem find_returns_all_matches matchFn records w :
  content filePath w = stringify <$> records →
  (find matchFn w).1 = Ok (filter (λ r, matchFn r = true) records) ∧
  matchFn_calls (log (find matchFn w).2) = matchFn_calls (log w) ++ records.
Proof.
  intros Hc. destruct (read_as_scan w records Hc) as (rbs & <- & Hread).
  unfold find. rewrite Hread.
  destruct (find_scan_log matchFn rbs [] w) as (c & evs & -> & Hcalls & _).
  simpl. by rewrite matchFn_calls_app, Hcalls.
Qed.

(** X5. [findOne] returns the first element of what [find] returns for
    the same predicate (and the not-found value when [find] returns the
    empty sequence). *)
Theorem findOne_is_head_of_find matchFn records w :
  content filePath w = stringify <$> records →
  ∃ found,
    (find matchFn w).1 = Ok found ∧ (findOne matchFn w).1 = Ok (head found).
Proof.
  intros Hc. exists (filter (λ r, matchFn r = true) records).
  split; [by apply find_run|].
  destruct (read_as_scan w records Hc) as (rbs & <- & Hread).
  unfold findOne, mbind, M_bind. rewrite Hread.
  destruct (findOne_scan matchFn rbs w) as (c & evs & -> & _).
  simpl. by rewrite find_is_head_filter.
Qed.

(** X6. [count] returns the number of records of the backing file, which
    is the length of what [find] returns for the always-true predicate;
    a store without a file counts zero. *)
Theorem count_is_length_of_find_all records w :
  content filePath w = stringify <$> records →
  (count w).1 = Ok (length records) ∧
  (find (λ _, true) w).1 = Ok records ∧
  (files w !! filePath = None → (count w).1 = Ok 0).
Proof.
  intros Hc. split; [|split].
  - by rewrite count_result, Hc, length_fmap.
  - rewrite (find_run (λ _, true) records w Hc). by rewrite filter_always.
  - intros Hnone. rewrite count_result. unfold content. by rewrite Hnone.
Qed.

(** X7. A durable [add] returns the records it was given and appends
    their serializations at the end of the backing file, in input order,
    after what was there; a single object is added as the one-element
    sequence. *)
Theorem add_appends_in_order items o w :
  ((add (JsArray items) true w).1 = Ok items ∧
   content filePath (add (JsArray items) true w).2 =
     content filePath w ++ (stringify <$> items)) ∧
  ((add (JsObject o) true w).1 = Ok [o] ∧
   content filePath (add (JsObject o) true w).2 =
     content filePath w ++ [stringify o]).
Proof.
  split.
  - unfold add. simpl. destruct items as [|r items].
    + simpl. by rewrite app_nil_r.
    + rewrite bool_decide_eq_false_2 by done.
      unfold add_items, mbind, M_bind. rewrite appendText_ok by done. simpl.
      split; [done|]. unfold content. simpl. by rewrite lookup_insert_eq.
  - unfold add. simpl. unfold add_items, mbind, M_bind.
    rewrite appendText_ok by done. simpl.
    split; [done|]. unfold content. simpl. by rewrite lookup_insert_eq.
Qed.

(** X8. After a durable [add] of [items], [count] returns what the file
    held before plus the number of items. *)
Theorem add_then_count items w :
  (count (add (JsArray items) true w).2).1 =
    Ok (length (content filePath w) + length items).
Proof.
  rewrite count_result. f_equal.
  assert (content filePath (add (JsArray items) true w).2 =
          content filePath w ++ (stringify <$> items)) as ->.
  { unfold add. simpl. destruct items as [|r items].
    - simpl. by rewrite app_nil_r.
    - rewrite bool_decide_eq_false_2 by done.
      unfold add_items, mbind, M_bind. rewrite appendText_ok by done. simpl.
      unfold content. simpl. by rewrite lookup_insert_eq. }
  by rewrite length_app, length_fmap.
Qed.

(** ** More on [update] and [delete] *)

Lemma updateFn_calls_app l1 l2 :
  updateFn_calls (l1 ++ l2) = updateFn_calls l1 ++ updateFn_calls l2.
Proof. apply omap_app. Qed.

Lemma updateFn_calls_MatchFn batch : updateFn_calls (MatchFn <$> batch) = [].
Proof. by induction batch. Qed.

Lemma updateFn_calls_update_calls matchFn batch :
  updateFn_calls (update_calls matchFn batch) =
    filter (λ r, matchFn r = true) batch.
Proof.
  induction batch as [|r rest IH]; [done|].
  change (update_calls matchFn (r :: rest)) with
    ((if matchFn r then [MatchFn r; UpdateFn r] else [MatchFn r])
       ++ update_calls matchFn rest).
  rewrite updateFn_calls_app, IH, filter_cons.
  by destruct (matchFn r).
Qed.

Lemma filter_filter_out (f : Record → bool) (l : list Record) :
  filter (λ r, f r = true) (filter (λ r, f r = false) l) = [].
Proof.
  induction l as [|r l IH]; [done|]. rewrite filter_cons.
  destruct (f r) eqn:Hf; simpl; [done|].
  rewrite filter_cons. by rewrite Hf.
Qed.

Lemma filter_out_idemp (f : Record → bool) (l : list Record) :
  filter (λ r, f r = false) (filter (λ r, f r = false) l) =
  filter (λ r, f r = false) l.
Proof.
  induction l as [|r l IH]; [done|]. rewrite filter_cons.
  destruct (f r) eqn:Hf; simpl; [done|].
  rewrite filter_cons. rewrite Hf. simpl. by rewrite IH.
Qed.

Lemma update_transient_scan matchFn updateFn rbs updated w :
  ∃ c evs,
    scan filePath (encode_batches rbs)
      (update_transient_visitor matchFn updateFn) updated w =
      (Ok (updated ++ (updateFn <$> filter (λ r, matchFn r = true) (concat rbs))),
       World (files w) c (log w ++ evs)) ∧
    matchFn_calls evs = concat rbs ∧
    updateFn_calls evs = filter (λ r, matchFn r = true) (concat rbs).
Proof.
  revert updated w. induction rbs as [|b rest IH]; intros updated w.
  - exists (clock w), []. simpl. unfold mret, M_ret.
    rewrite !app_nil_r. by destruct w.
  - rewrite scan_step. unfold mbind, M_bind.
    rewrite update_transient_visitor_run.
    match goal with |- context [scan _ _ _ ?u ?w1] =>
      destruct (IH u w1) as (c & evs & -> & Hm & Hu) end.
    simpl. eexists _, _. rewrite filter_app, fmap_app, <-!app_assoc.
    split; [done|]. split.
    + by rewrite !matchFn_calls_app, matchFn_calls_update_calls, Hm.
    + rewrite !updateFn_calls_app, updateFn_calls_update_calls, Hu. done.
Qed.

Lemma update_scan_log matchFn updateFn tmp rbs updated w :
  ∃ c evs,
    scan filePath (encode_batches rbs)
      (update_durable_visitor matchFn updateFn tmp) updated w =
      (Ok (updated ++ (updateFn <$> filter (λ r, matchFn r = true) (concat rbs))),
       World
         (appended tmp
            (stringify <$> (updated_record matchFn updateFn <$> concat rbs))
            (existsb written rbs) (files w))
         c (log w ++ evs)) ∧
    matchFn_calls evs = concat rbs ∧
    updateFn_calls evs = filter (λ r, matchFn r = true) (concat rbs).
Proof.
  revert updated w. induction rbs as [|b rest IH]; intros updated w.
  - exists (clock w), []. simpl. unfold mret, M_ret.
    rewrite !app_nil_r. by destruct w.
  - rewrite scan_step. unfold mbind, M_bind.
    rewrite update_durable_visitor_run. simpl existsb.
    destruct (written b) eqn:Hw.
    + match goal with |- context [scan _ _ _ ?u ?w1] =>
        destruct (IH u w1) as (c & evs & -> & Hm & Hu) end.
      simpl. eexists _, _. unfold content. simpl.
      rewrite appended_after.
      * rewrite filter_app, !fmap_app, <-!app_assoc. split; [done|]. split.
        -- by rewrite !matchFn_calls_app, matchFn_calls_update_calls, Hm.
        -- rewrite !updateFn_calls_app, updateFn_calls_update_calls, Hu. done.
      * intros Hr. by rewrite (none_written _ Hr).
    + rewrite (written_false _ Hw).
      match goal with |- context [scan _ _ _ ?u ?w1] =>
        destruct (IH u w1) as (c & evs & -> & Hm & Hu) end.
      simpl. eexists _, _. rewrite app_nil_r, <-!app_assoc.
      split; [done|]. split.
      * by rewrite !matchFn_calls_app, Hm.
      * by rewrite !updateFn_calls_app, Hu.
Qed.

(** The durable [update], once its scan has gone through. *)
Lemma update_durable_run matchFn updateFn records w :
  tempPath ≠ filePath →
  files w !! tempPath = None →
  content filePath w = stringify <$> records →
  ∃ evs ok,
    matchFn_calls evs = records ∧
    updateFn_calls evs = filter (λ r, matchFn r = true) records ∧
    log (update matchFn updateFn true w).2 =
      (log w ++ evs) ++
        [Io (Rename tempPath filePath) ok; Io (Remove tempPath) true] ∧
    content filePath (update matchFn updateFn true w).2 =
      stringify <$> (updated_record matchFn updateFn <$> records) ∧
    (update matchFn updateFn true w).1 =
      (if ok then Ok (updateFn <$> filter (λ r, matchFn r = true) records)
       else Err (IOFailure (Rename tempPath filePath))) ∧
    (records ≠ [] ∨ precreated = true → ok = true).
Proof.
  intros Hne Hfresh Hc.
  pose proof Hc as Hc0. rewrite <-(content_task_start w Hne) in Hc0.
  destruct (read_as_scan _ records Hc0) as (rbs & <- & Hread).
  destruct (update_scan_log matchFn updateFn tempPath rbs [] (task_start w))
    as (c & evs & Hscan & Hm & Hu).
  assert (log (task_start w) = log w) as Hlog.
  { unfold task_start. by destruct precreated. }
  rewrite Hlog in Hscan.
  assert (update_rewrite matchFn updateFn tempPath (task_start w) = _)
    as Hrw by (unfold update_rewrite; rewrite Hread; exact Hscan).
  assert (existsb written rbs = false →
          stringify <$> (updated_record matchFn updateFn <$> concat rbs) = [])
    as Hlines.
  { intros Hr. by rewrite (none_written _ Hr). }
  pose proof (durable_outcome (update_rewrite matchFn updateFn) w _ _ _ _ _
                Hne Hfresh Hlines Hrw) as Hout.
  simpl in Hout. exists evs, (existsb written rbs || precreated).
  split; [done|]. split; [done|]. unfold update.
  destruct (existsb written rbs || precreated) eqn:Hexists.
  - destruct Hout as (-> & Hfile & ->). unfold content. rewrite Hfile.
    done.
  - destruct Hout as (-> & Hfile & ->).
    apply orb_false_iff in Hexists as [Hr Hpre].
    pose proof (none_written _ Hr) as Hnil. rewrite Hnil in *.
    unfold content in *. rewrite Hfile.
    split; [done|]. split; [exact Hc|]. split; [done|].
    intros [Hrec|Hp]; [by destruct Hrec | by rewrite Hp in Hpre].
Qed.

(** X9. A transient [update] returns [updateFn r] for every record [r]
    that satisfies the predicate, in file order, and nothing else;
    [updateFn] is invoked on the matching records only, once each. *)
Theorem update_transient_returns_transformed matchFn updateFn records w :
  content filePath w = stringify <$> records →
  (update matchFn updateFn false w).1 =
    Ok (updateFn <$> filter (λ r, matchFn r = true) records) ∧
  updateFn_calls (log (update matchFn updateFn false w).2) =
    updateFn_calls (log w) ++ filter (λ r, matchFn r = true) records.
Proof.
  intros Hc. destruct (read_as_scan w records Hc) as (rbs & <- & Hread).
  unfold update. rewrite Hread.
  destruct (update_transient_scan matchFn updateFn rbs [] w)
    as (c & evs & -> & _ & Hu).
  simpl. by rewrite updateFn_calls_app, Hu.
Qed.

(** X10. On a store with at least one record (or with the temporary file
    created up front), a durable [update] returns what the transient one
    returns, the transformed matching records in file order, and invokes
    [updateFn] on the matching records only, once each. *)
Theorem update_durable_returns_transformed matchFn updateFn records w :
  tempPath ≠ filePath →
  files w !! tempPath = None →
  content filePath w = stringify <$> records →
  records ≠ [] ∨ precreated = true →
  (update matchFn updateFn true w).1 =
    Ok (updateFn <$> filter (λ r, matchFn r = true) records) ∧
  (update matchFn updateFn true w).1 = (update matchFn updateFn false w).1 ∧
  updateFn_calls (log (update matchFn updateFn true w).2) =
    updateFn_calls (log w) ++ filter (λ r, matchFn r = true) records.
Proof.
  intros Hne Hfresh Hc Hex.
  destruct (update_durable_run matchFn updateFn records w Hne Hfresh Hc)
    as (evs & ok & _ & Hu & Hlog & _ & Hres & Hok).
  rewrite (Hok Hex) in *. rewrite Hres, Hlog. split; [done|]. split.
  - destruct (read_as_scan w records Hc) as (rbs & <- & Hread).
    unfold update. rewrite Hread.
    by destruct (update_transient_scan matchFn updateFn rbs [] w)
      as (c & evs' & -> & _).
  - rewrite !updateFn_calls_app, Hu. simpl. by rewrite app_nil_r.
Qed.

(** X11. After a durable [update], [find] with any predicate [q] returns
    the records of the old file, each matching one replaced by its
    transform, that satisfy [q], in file order. *)
Theorem update_then_find matchFn updateFn q records w :
  tempPath ≠ filePath →
  files w !! tempPath = None →
  content filePath w = stringify <$> records →
  (find q (update matchFn updateFn true w).2).1 =
    Ok (filter (λ r, q r = true) (updated_record matchFn updateFn <$> records)).
Proof.
  intros Hne Hfresh Hc.
  destruct (update_durable_run matchFn updateFn records w Hne Hfresh Hc)
    as (evs & ok & _ & _ & _ & Hcontent & _).
  by apply find_run.
Qed.

(** X12. After a durable [delete] that keeps at least one record, [find]
    with the deleting predicate returns nothing, [find] with any
    predicate [q] returns the kept records that satisfy [q], and [count]
    returns the number of kept records. *)
Theorem delete_then_find matchFn q records w :
  tempPath ≠ filePath →
  files w !! tempPath = None →
  content filePath w = stringify <$> records →
  filter (λ r, matchFn r = false) records ≠ [] ∨ precreated = true →
  (find matchFn (delete matchFn true w).2).1 = Ok [] ∧
  (find q (delete matchFn true w).2).1 =
    Ok (filter (λ r, q r = true) (filter (λ r, matchFn r = false) records)) ∧
  (count (delete matchFn true w).2).1 =
    Ok (length (filter (λ r, matchFn r = false) records)).
Proof.
  intros Hne Hfresh Hc Hex.
  pose proof (delete_durable_run matchFn records w Hne Hfresh Hc) as Hd.
  cbv zeta in Hd.
  assert (bool_decide (filter (λ r, matchFn r = false) records ≠ [])
            || precreated = true) as Hexists.
  { destruct Hex as [Hk| ->]; [|by rewrite orb_true_r].
    by rewrite bool_decide_eq_true_2. }
  rewrite Hexists in Hd. destruct Hd as [_ Hfile].
  assert (content filePath (delete matchFn true w).2 =
          stringify <$> filter (λ r, matchFn r = false) records) as Hc'.
  { unfold content. by rewrite Hfile. }
  split; [|split].
  - rewrite (find_run matchFn _ _ Hc'). by rewrite filter_filter_out.
  - by apply find_run.
  - by rewrite count_result, Hc', length_fmap.
Qed.

Lemma no_temp_after_task {A} (task : string → M A) w :
  files (temporaryFileTask task w).2 !! tempPath = None.
Proof.
  unfold temporaryFileTask. destruct (task tempPath (task_start w)) as [r w1].
  simpl. unfold fs_remove. apply lookup_delete_eq.
Qed.

Lemma filter_out_all (f : Record → bool) (l : list Record) :
  Forall (λ r, f r = false) l →
  filter (λ r, f r = false) l = l ∧ filter (λ r, f r = true) l = [] ∧
  ∀ g, updated_record f g <$> l = l.
Proof.
  induction 1 as [|r l Hr _ (IH1 & IH2 & IH3)]; [done|].
  rewrite !filter_cons, Hr. simpl. rewrite IH1, IH2. split; [done|].
  split; [done|]. intros g. specialize (IH3 g).
  change (updated_record f g r :: (updated_record f g <$> l) = r :: l).
  rewrite IH3. unfold updated_record. by rewrite Hr.
Qed.

(** X13. A durable [delete] is idempotent: run again with the same
    predicate right after, it returns the same kept records and leaves
    the file as the first run left it. *)
Theorem delete_twice matchFn records w :
  tempPath ≠ filePath →
  files w !! tempPath = None →
  content filePath w = stringify <$> records →
  filter (λ r, matchFn r = false) records ≠ [] ∨ precreated = true →
  (delete matchFn true (delete matchFn true w).2).1 =
    (delete matchFn true w).1 ∧
  content filePath (delete matchFn true (delete matchFn true w).2).2 =
    content filePath (delete matchFn true w).2.
Proof.
  intros Hne Hfresh Hc Hex.
  assert (∀ l, filter (λ r, matchFn r = false) l ≠ [] ∨ precreated = true →
            bool_decide (filter (λ r, matchFn r = false) l ≠ [])
              || precreated = true) as Hcond.
  { intros l [Hk| ->]; [|by rewrite orb_true_r].
    by rewrite bool_decide_eq_true_2. }
  pose proof (delete_durable_run matchFn records w Hne Hfresh Hc) as Hd.
  cbv zeta in Hd. rewrite (Hcond _ Hex) in Hd. destruct Hd as [Hres Hfile].
  assert (content filePath (delete matchFn true w).2 =
          stringify <$> filter (λ r, matchFn r = false) records) as Hc'.
  { unfold content. by rewrite Hfile. }
  assert (files (delete matchFn true w).2 !! tempPath = None) as Hfresh'.
  { unfold delete. apply no_temp_after_task. }
  pose proof (delete_durable_run matchFn _ _ Hne Hfresh' Hc') as Hd'.
  cbv zeta in Hd'. rewrite filter_out_idemp in Hd'.
  rewrite (Hcond _ Hex) in Hd'. destruct Hd' as [Hres' Hfile'].
  rewrite Hres, Hres'. split; [done|].
  rewrite Hc'. unfold content. by rewrite Hfile'.
Qed.

(** X14. On a file the store wrote itself, each line being the
    serialization of its record, a predicate that no record satisfies is
    no error and changes nothing: the durable [update] returns the empty
    sequence, the durable [delete] returns every record, and both leave
    the content of the file as it was. *)
Theorem no_match_changes_nothing matchFn updateFn records w :
  tempPath ≠ filePath →
  files w !! tempPath = None →
  content filePath w = stringify <$> records →
  Forall (λ r, matchFn r = false) records →
  records ≠ [] ∨ precreated = true →
  ((update matchFn updateFn true w).1 = Ok [] ∧
   content filePath (update matchFn updateFn true w).2 = content filePath w) ∧
  ((delete matchFn true w).1 = Ok records ∧
   content filePath (delete matchFn true w).2 = content filePath w).
Proof.
  intros Hne Hfresh Hc Hnone Hex.
  destruct (filter_out_all matchFn records Hnone) as (Hkept & Hmatch & Hupd).
  split.
  - destruct (update_durable_run matchFn updateFn records w Hne Hfresh Hc)
      as (evs & ok & _ & _ & _ & Hcontent & Hres & Hok).
    rewrite (Hok Hex) in Hres. rewrite Hres, Hcontent, Hmatch, Hupd.
    by rewrite Hc.
  - pose proof (delete_durable_run matchFn records w Hne Hfresh Hc) as Hd.
    cbv zeta in Hd. rewrite Hkept in Hd.
    assert (bool_decide (records ≠ []) || precreated = true) as Hexists.
    { destruct Hex as [Hk| ->]; [|by rewrite orb_true_r].
      by rewrite bool_decide_eq_true_2. }
    rewrite Hexists in Hd. destruct Hd as [-> Hfile].
    split; [done|]. unfold content in *. by rewrite Hfile, Hc.
Qed.

(** X15. Left without its [mutateDb] argument, [update] and [delete] run
    in transient mode and leave the file system as it was, while [add]
    runs in durable mode and appends to the backing file. *)
Theorem default_modes matchFn updateFn items w :
  files (update_call matchFn updateFn None w).2 = files w ∧
  files (delete_call matchFn None w).2 = files w ∧
  content filePath (add_call (JsArray items) None w).2 =
    content filePath w ++ (stringify <$> items).
Proof.
  split; [|split].
  - by injection (storage_transient_update matchFn updateFn w).
  - by injection (storage_transient_delete matchFn w).
  - unfold add_call, add. simpl. destruct items as [|r items].
    + simpl. by rewrite app_nil_r.
    + rewrite bool_decide_eq_false_2 by done.
      unfold add_items, mbind, M_bind. rewrite appendText_ok by done. simpl.
      unfold content. simpl. by rewrite lookup_insert_eq.
Qed.

(** ** Where [findOne] stops, and how often the predicate runs *)

Lemma through_first_last (f : Record → bool) (l : list Record) r :
  List.find f l = Some r → last (through_first f l) = Some r.
Proof.
  induction l as [|x l IH]; [done|]. simpl.
  destruct (f x) eqn:Hx.
  - intros [= Heq]. by rewrite Heq.
  - intros Hl. rewrite last_cons, (IH Hl). done.
Qed.

Lemma findOne_scan_last matchFn rbs w r :
  List.find matchFn (concat rbs) = Some r →
  last (log (scan filePath (encode_batches rbs) (findOne_visitor matchFn)
               (None, false) w).2) = Some (MatchFn r).
Proof.
  revert w. induction rbs as [|b rest IH]; intros w Hfind; [done|].
  rewrite scan_step. unfold mbind, M_bind. rewrite findOne_visitor_run.
  simpl in Hfind. destruct (List.find matchFn b) as [r'|] eqn:Hb.
  - destruct (find_app_Some matchFn b (concat rest) r' Hb) as [Hr _].
    rewrite Hr in Hfind. injection Hfind as ->. simpl.
    rewrite last_app, fmap_last, (through_first_last _ _ _ Hb). done.
  - destruct (find_app_None matchFn b (concat rest) Hb) as [Hr _].
    rewrite Hr in Hfind. simpl. by apply IH.
Qed.

(** X21. When [findOne] finds a record, the predicate call that accepted
    it is the last thing the call did: no further record is evaluated
    and no further batch is read. *)
Theorem findOne_stops_at_match matchFn records r w :
  content filePath w = stringify <$> records →
  List.find matchFn records = Some r →
  (findOne matchFn w).1 = Ok (Some r) ∧
  last (log (findOne matchFn w).2) = Some (MatchFn r).
Proof.
  intros Hc Hfind. destruct (read_as_scan w records Hc) as (rbs & <- & Hread).
  pose proof (findOne_scan_last matchFn rbs w r Hfind) as Hlast.
  unfold findOne, mbind, M_bind. rewrite Hread.
  destruct (findOne_scan matchFn rbs w) as (c & evs & Hscan & _).
  rewrite Hscan in *. simpl in *. by rewrite Hfind.
Qed.

Lemma delete_transient_scan_calls matchFn rbs kept w :
  matchFn_calls
    (log (scan filePath (encode_batches rbs)
            (delete_transient_visitor matchFn) kept w).2) =
  matchFn_calls (log w) ++ concat rbs.
Proof.
  revert kept w. induction rbs as [|b rest IH]; intros kept w.
  - simpl. by rewrite app_nil_r.
  - rewrite scan_step. unfold mbind, M_bind.
    rewrite delete_transient_visitor_run. rewrite IH. simpl.
    rewrite !matchFn_calls_app, matchFn_calls_MatchFn. simpl.
    by rewrite app_nil_r, <-app_assoc.
Qed.

(** X22. [update] and [delete], durable or transient, invoke the
    predicate on every record of the file exactly once, in file order. *)
Theorem predicate_called_once_per_record matchFn updateFn mutateDb records w :
  tempPath ≠ filePath →
  files w !! tempPath = None →
  content filePath w = stringify <$> records →
  matchFn_calls (log (update matchFn updateFn mutateDb w).2) =
    matchFn_calls (log w) ++ records ∧
  matchFn_calls (log (delete matchFn mutateDb w).2) =
    matchFn_calls (log w) ++ records.
Proof.
  intros Hne Hfresh Hc. destruct mutateDb; split.
  - destruct (update_durable_run matchFn updateFn records w Hne Hfresh Hc)
      as (evs & ok & Hm & _ & -> & _).
    rewrite !matchFn_calls_app, Hm. simpl. by rewrite app_nil_r.
  - destruct (delete_rewrite_run matchFn records w Hne Hc)
      as (c & evs & Hrw & Hm & _). cbv zeta in Hrw.
    assert (bool_decide (filter (λ r, matchFn r = false) records ≠ []) = false
            → stringify <$> filter (λ r, matchFn r = false) records = [])
      as Hlines.
    { intros Hr. apply bool_decide_eq_false in Hr.
      destruct (filter _ records); [done|]. by destruct Hr. }
    pose proof (durable_outcome (delete_rewrite matchFn) w _ _ _ _ _
                  Hne Hfresh Hlines Hrw) as Hout.
    simpl in Hout. unfold delete.
    destruct (_ || precreated); destruct Hout as (_ & _ & ->);
      rewrite !matchFn_calls_app, Hm; simpl; by rewrite app_nil_r.
  - destruct (read_as_scan w records Hc) as (rbs & <- & Hread).
    unfold update. rewrite Hread.
    destruct (update_transient_scan matchFn updateFn rbs [] w)
      as (c & evs & -> & Hm & _).
    simpl. by rewrite matchFn_calls_app, Hm.
  - destruct (read_as_scan w records Hc) as (rbs & <- & Hread).
    unfold delete. rewrite Hread. apply delete_transient_scan_calls.
Qed.

(** ** All or nothing, under any fault plan *)

Lemma scan_step_any {St} p batch rest
    (visitor : list Record → St → M (bool * St)) s w :
  scan p (encode_batches (batch :: rest)) visitor s w =
    match perform (ReadBatch p) Some w with
    | (Ok _, w1) =>
        (visitor batch s ≫= λ '(stop, s'),
           if (stop : bool) then mret s'
           else scan p (encode_batches rest) visitor s') w1
    | (Err e, w1) => (Err e, w1)
    end.
Proof.
  simpl. unfold mbind at 1, M_bind at 1.
  destruct (perform (ReadBatch p) Some w) as [[[]|e] w1]; [|done].
  unfold mbind at 1, M_bind at 1. by rewrite decode_stringify.
Qed.

Lemma update_durable_visitor_any matchFn updateFn tmp batch updated w :
  (∃ e w', update_durable_visitor matchFn updateFn tmp batch updated w =
             (Err e, w')) ∨
  (∃ c l, update_durable_visitor matchFn updateFn tmp batch updated w =
            (Ok (false,
                 updated ++ (updateFn <$> filter (λ r, matchFn r = true) batch)),
             World
               (if written batch
                then <[tmp := content tmp w ++
                              (stringify <$>
                                 (updated_record matchFn updateFn <$> batch))]>
                       (files w)
                else files w) c l)).
Proof.
  unfold update_durable_visitor, mbind, M_bind. rewrite update_map_run.
  unfold append, appendText. rewrite reaches_file_stringify, written_fmap.
  destruct (written batch).
  - match goal with |- context [perform ?op ?eff ?w1] =>
      destruct (perform_cases op eff w1) as [(fs & [= <-] & ->)| ->] end.
    + right. by eexists _, _.
    + left. by eexists _, _.
  - right. by eexists _, _.
Qed.

Lemma delete_durable_visitor_any matchFn tmp batch kept w :
  let kept_batch := filter (λ r, matchFn r = false) batch in
  (∃ e w', delete_durable_visitor matchFn tmp batch kept w = (Err e, w')) ∨
  (∃ c l, delete_durable_visitor matchFn tmp batch kept w =
            (Ok (false, kept ++ kept_batch),
             World
               (if bool_decide (kept_batch ≠ [])
                then <[tmp := content tmp w ++ (stringify <$> kept_batch)]>
                       (files w)
                else files w) c l)).
Proof.
  cbv zeta. unfold delete_durable_visitor, mbind, M_bind.
  rewrite delete_filter_run.
  destruct (filter (λ r, matchFn r = false) batch) as [|k kb] eqn:Hkb.
  - right. by eexists _, _.
  - rewrite bool_decide_eq_true_2 by (simpl; lia).
    rewrite bool_decide_eq_true_2 by done.
    unfold append, appendText. rewrite reaches_file_nonempty by done.
    match goal with |- context [perform ?op ?eff ?w1] =>
      destruct (perform_cases op eff w1) as [(fs & [= <-] & ->)| ->] end.
    + right. by eexists _, _.
    + left. by eexists _, _.
Qed.

Lemma update_scan_any matchFn updateFn tmp rbs updated w :
  (∃ e, (scan filePath (encode_batches rbs)
           (update_durable_visitor matchFn updateFn tmp) updated w).1 = Err e) ∨
  ((scan filePath (encode_batches rbs)
      (update_durable_visitor matchFn updateFn tmp) updated w).1 =
     Ok (updated ++ (updateFn <$> filter (λ r, matchFn r = true) (concat rbs))) ∧
   files (scan filePath (encode_batches rbs)
            (update_durable_visitor matchFn updateFn tmp) updated w).2 =
     appended tmp
       (stringify <$> (updated_record matchFn updateFn <$> concat rbs))
       (existsb written rbs) (files w)).
Proof.
  revert updated w. induction rbs as [|b rest IH]; intros updated w.
  - right. simpl. by rewrite !app_nil_r.
  - rewrite scan_step_any.
    destruct (perform_cases (ReadBatch filePath) Some w)
      as [(fs & [= <-] & ->)| ->]; [|left; by eexists].
    unfold mbind, M_bind.
    match goal with |- context [update_durable_visitor _ _ _ _ _ ?w1] =>
      destruct (update_durable_visitor_any matchFn updateFn tmp b updated w1)
        as [(e & w' & ->)|(c & l & ->)] end; [left; by eexists|].
    match goal with |- context [scan _ _ _ ?u ?w1] =>
      destruct (IH u w1) as [[e He]|[Hres Hfiles]] end.
    + left. by exists e.
    + right. rewrite Hres, Hfiles. unfold content. simpl.
      destruct (written b) eqn:Hw; simpl.
      * rewrite appended_after.
        -- by rewrite filter_app, !fmap_app, <-!app_assoc.
        -- intros Hr. by rewrite (none_written _ Hr).
      * rewrite (written_false _ Hw). simpl. by rewrite app_nil_r.
Qed.

Lemma delete_scan_any matchFn tmp rbs kept w :
  let kept_all := filter (λ r, matchFn r = false) (concat rbs) in
  (∃ e, (scan filePath (encode_batches rbs)
           (delete_durable_visitor matchFn tmp) kept w).1 = Err e) ∨
  ((scan filePath (encode_batches rbs)
      (delete_durable_visitor matchFn tmp) kept w).1 = Ok (kept ++ kept_all) ∧
   files (scan filePath (encode_batches rbs)
            (delete_durable_visitor matchFn tmp) kept w).2 =
     appended tmp (stringify <$> kept_all) (bool_decide (kept_all ≠ []))
       (files w)).
Proof.
  cbv zeta. revert kept w. induction rbs as [|b rest IH]; intros kept w.
  - right. simpl. by rewrite !app_nil_r.
  - rewrite scan_step_any.
    destruct (perform_cases (ReadBatch filePath) Some w)
      as [(fs & [= <-] & ->)| ->]; [|left; by eexists].
    unfold mbind, M_bind.
    match goal with |- context [delete_durable_visitor _ _ _ _ ?w1] =>
      destruct (delete_durable_visitor_any matchFn tmp b kept w1)
        as [(e & w' & ->)|(c & l & ->)] end; [left; by eexists|].
    match goal with |- context [scan _ _ _ ?u ?w1] =>
      destruct (IH u w1) as [[e He]|[Hres Hfiles]] end.
    + left. by exists e.
    + right. rewrite Hres, Hfiles. simpl concat. rewrite filter_app.
      set (kb := filter (λ r, matchFn r = false) b).
      set (kr := filter (λ r, matchFn r = false) (concat rest)).
      split; [by rewrite app_assoc|]. simpl.
      destruct (bool_decide_reflect (kb ≠ [])) as [Hkb|Hkb].
      * unfold content. simpl. rewrite appended_after.
        -- rewrite bool_decide_eq_true_2 by (by intros [? ?]%app_eq_nil).
           unfold appended. by rewrite fmap_app.
        -- intros Hr. apply bool_decide_eq_false in Hr.
           destruct kr; [done|]. by destruct Hr.
      * assert (kb = []) as -> by (destruct kb; [done|by destruct Hkb]).
        done.
Qed.

Lemma durable_all_or_nothing {A} (rewrite_phase : string → M A)
    w a lines touched :
  tempPath ≠ filePath →
  files w !! tempPath = None →
  (touched = false → lines = []) →
  keeps original (rewrite_phase tempPath) →
  (∃ e, (rewrite_phase tempPath (task_start w)).1 = Err e) ∨
  ((rewrite_phase tempPath (task_start w)).1 = Ok a ∧
   files (rewrite_phase tempPath (task_start w)).2 =
     appended tempPath lines touched (files (task_start w))) →
  let run :=
    temporaryFileTask
      (λ tmp, x ← rewrite_phase tmp; rename tmp filePath;; mret x) w in
  (run.1 = Ok a ∧ files run.2 !! filePath = Some lines) ∨
  (∃ e, run.1 = Err e ∧ files run.2 !! filePath = files w !! filePath).
Proof.
  intros Hne Hfresh Hlines Hkeep Hphase. cbv zeta.
  unfold temporaryFileTask, mbind, M_bind.
  specialize (Hkeep (task_start w)).
  destruct (rewrite_phase tempPath (task_start w)) as [[x|e] w1]; simpl in *.
  - destruct Hphase as [[e He]|[[= ->] Hfiles]]; [done|].
    pose proof (temp_at_task_start w Hfresh) as Htmp.
    assert (files w1 !! tempPath =
            if touched || precreated then Some lines else None) as Hlook.
    { rewrite Hfiles. unfold appended. destruct touched; simpl.
      - rewrite lookup_insert_eq, Htmp. by destruct precreated.
      - rewrite Htmp, Hlines by done. by destruct precreated. }
    assert (files w1 !! filePath = files w !! filePath) as Hsame.
    { rewrite Hfiles. unfold appended. destruct touched.
      - rewrite lookup_insert_ne by done. by apply lookup_task_start.
      - by apply lookup_task_start. }
    unfold rename.
    destruct (perform_cases (Rename tempPath filePath)
                (fs_rename tempPath filePath) w1)
      as [(fs2 & Hmv & ->)| ->]; simpl.
    + left. split; [done|]. rewrite fs_remove_other by done.
      rewrite (fs_rename_dst _ _ _ _ Hmv), Hlook.
      unfold fs_rename in Hmv. rewrite Hlook in Hmv.
      by destruct (touched || precreated).
    + right. eexists. split; [done|]. by rewrite fs_remove_other.
  - right. exists e. split; [done|]. rewrite fs_remove_other by done.
    injection Hkeep as Hfile _. rewrite Hfile. by apply lookup_task_start.
Qed.

(** X19. The durable [update] is all or nothing under any fault plan:
    either it returns the transformed records and the backing file holds
    the fully rewritten content, or it fails and the backing file is what
    it was; no partly rewritten file is ever left. *)
Theorem update_all_or_nothing matchFn updateFn records w :
  tempPath ≠ filePath →
  files w !! tempPath = None →
  content filePath w = stringify <$> records →
  ((update matchFn updateFn true w).1 =
     Ok (updateFn <$> filter (λ r, matchFn r = true) records) ∧
   content filePath (update matchFn updateFn true w).2 =
     stringify <$> (updated_record matchFn updateFn <$> records)) ∨
  (∃ e, (update matchFn updateFn true w).1 = Err e ∧
        files (update matchFn updateFn true w).2 !! filePath =
          files w !! filePath).
Proof.
  intros Hne Hfresh Hc.
  pose proof Hc as Hc0. rewrite <-(content_task_start w Hne) in Hc0.
  destruct (read_as_scan _ records Hc0) as (rbs & <- & Hread).
  pose proof (update_scan_any matchFn updateFn tempPath rbs [] (task_start w))
    as Hscan.
  rewrite <-Hread in Hscan. fold (update_rewrite matchFn updateFn tempPath) in Hscan.
  assert (existsb written rbs = false →
          stringify <$> (updated_record matchFn updateFn <$> concat rbs) = [])
    as Hlines.
  { intros Hr. by rewrite (none_written _ Hr). }
  destruct (durable_all_or_nothing (update_rewrite matchFn updateFn) w _ _ _
              Hne Hfresh Hlines (original_update_rewrite _ _ _ Hne) Hscan)
    as [[Hres Hfile]|Herr].
  - left. unfold update. split; [exact Hres|].
    unfold content. by rewrite Hfile.
  - right. exact Herr.
Qed.

(** X20. The durable [delete] is all or nothing under any fault plan:
    either it returns the kept records and the backing file holds
    exactly them, or it fails and the backing file is what it was. *)
Theorem delete_all_or_nothing matchFn records w :
  tempPath ≠ filePath →
  files w !! tempPath = None →
  content filePath w = stringify <$> records →
  ((delete matchFn true w).1 = Ok (filter (λ r, matchFn r = false) records) ∧
   content filePath (delete matchFn true w).2 =
     stringify <$> filter (λ r, matchFn r = false) records) ∨
  (∃ e, (delete matchFn true w).1 = Err e ∧
        files (delete matchFn true w).2 !! filePath = files w !! filePath).
Proof.
  intros Hne Hfresh Hc.
  pose proof Hc as Hc0. rewrite <-(content_task_start w Hne) in Hc0.
  destruct (read_as_scan _ records Hc0) as (rbs & <- & Hread).
  pose proof (delete_scan_any matchFn tempPath rbs [] (task_start w)) as Hscan.
  cbv zeta in Hscan.
  rewrite <-Hread in Hscan. fold (delete_rewrite matchFn tempPath) in Hscan.
  set (kept := filter (λ r, matchFn r = false) (concat rbs)) in *.
  assert (bool_decide (kept ≠ []) = false → stringify <$> kept = [])
    as Hlines.
  { intros Hr. apply bool_decide_eq_false in Hr.
    destruct kept; [done|]. by destruct Hr. }
  destruct (durable_all_or_nothing (delete_rewrite matchFn) w _ _ _
              Hne Hfresh Hlines (original_delete_rewrite _ _ Hne) Hscan)
    as [[Hres Hfile]|Herr].
  - left. unfold delete. split; [exact Hres|].
    unfold content. by rewrite Hfile.
  - right. exact Herr.
Qed.

End fault_free.

(** ** The skipped append, under any fault plan *)

Lemma scan_ext {St} p batches
    (v1 v2 : list Record → St → M (bool * St)) s w :
  (∀ batch s w, v1 batch s w = v2 batch s w) →
  scan p batches v1 s w = scan p batches v2 s w.
Proof.
  intros H. revert s w. induction batches as [|b rest IH]; intros s w; [done|].
  simpl. unfold mbind, M_bind.
  destruct (perform (ReadBatch p) Some w) as [[[]|e] w1]; [|done].
  destruct (decode b w1) as [[batch|e] w2]; [|done].
  rewrite H. destruct (v2 batch s w2) as [[[stop s']|e] w3]; [|done].
  destruct stop; [done|apply IH].
Qed.

Lemma read_ext {St} p (v1 v2 : list Record → St → M (bool * St)) s w :
  (∀ batch s w, v1 batch s w = v2 batch s w) →
  read p v1 s w = read p v2 s w.
Proof.
  intros H. unfold read. destruct (files w !! p); [|done]. by apply scan_ext.
Qed.

Lemma delete_visitors_agree matchFn tmp batch kept w :
  empty_append_creates = false →
  delete_durable_visitor matchFn tmp batch kept w =
  delete_unconditional_visitor matchFn tmp batch kept w.
Proof.
  intros He. unfold delete_durable_visitor, delete_unconditional_visitor.
  unfold mbind, M_bind. rewrite delete_filter_run.
  destruct (filter (λ r, matchFn r = false) batch) as [|k kb].
  - unfold append, appendText, reaches_file. by rewrite He.
  - by rewrite bool_decide_eq_true_2 by (simpl; lia).
Qed.

(** C8. With an accessor that returns at once when it is handed zero
    lines, skipping the append of an empty kept batch cannot be observed:
    whatever the file holds, the predicate, the batching and the fault
    plan, the durable [delete] and the variant that appends every
    processed batch make the same run, with the same result or error, the
    same file system and the same log. *)
Theorem delete_skip_is_unobservable matchFn w :
  empty_append_creates = false →
  delete matchFn true w = delete_unconditional matchFn w.
Proof.
  intros He. unfold delete, delete_unconditional, temporaryFileTask.
  unfold mbind, M_bind, delete_rewrite, delete_unconditional_rewrite.
  rewrite (read_ext filePath (delete_durable_visitor matchFn tempPath)
             (delete_unconditional_visitor matchFn tempPath)); [done|].
  intros batch kept w'. by apply delete_visitors_agree.
Qed.

(** C9. [add] throws its own error exactly when [data] is neither an
    object nor an array, and then leaves the world as it was; an empty
    array is accepted, returns the empty sequence and touches nothing,
    durable mode or not. *)
Theorem add_rejects_only_non_records data mutateDb w :
  ((add data mutateDb w).1 = Err InvalidInput ↔
     (¬ ∃ o, data = JsObject o) ∧ (¬ ∃ items, data = JsArray items)) ∧
  ((add data mutateDb w).1 = Err InvalidInput → (add data mutateDb w).2 = w) ∧
  add (JsArray []) mutateDb w = (Ok [], w).
Proof.
  assert (∀ items, (add_items items mutateDb w).1 ≠ Err InvalidInput) as Hitems.
  { intros items. unfold add_items, mbind, M_bind. destruct mutateDb; [|done].
    unfold appendText. destruct (reaches_file _); [|done].
    by destruct (perform_cases (AppendFile filePath (stringify <$> items))
                   (fs_append filePath (stringify <$> items)) w)
      as [(fs & _ & ->)| ->]. }
  split; [|split; [|done]].
  - split.
    + intros Herr. split; intros [x ->]; unfold add in Herr; simpl in Herr.
      * by apply Hitems in Herr.
      * case_bool_decide; [done|]. by apply Hitems in Herr.
    + intros [Hobj Harr]. destruct data; try done.
      * destruct Hobj; eauto.
      * destruct Harr; eauto.
  - intros Herr. destruct data; try done; unfold add in *; simpl in *.
    + by apply Hitems in Herr.
    + case_bool_decide; [done|]. by apply Hitems in Herr.
Qed.


(** C7. Transient [update] and [delete] leave the file system as it was,
    under any fault plan; hence [count] and every [find] answer after the
    call what they answered before it. *)
Theorem transient_ops_leave_store matchFn updateFn w :
  files (update matchFn updateFn false w).2 = files w ∧
  files (delete matchFn false w).2 = files w ∧
  ((∀ n, faulty n = false) →
     (count (update matchFn updateFn false w).2).1 = (count w).1 ∧
     (count (delete matchFn false w).2).1 = (count w).1 ∧
     ∀ q, (find q (update matchFn updateFn false w).2).1 = (find q w).1 ∧
          (find q (delete matchFn false w).2).1 = (find q w).1).
Proof.
  assert (files (update matchFn updateFn false w).2 = files w) as Hu.
  { by injection (storage_transient_update matchFn updateFn w). }
  assert (files (delete matchFn false w).2 = files w) as Hd.
  { by injection (storage_transient_delete matchFn w). }
  split; [done|]. split; [done|]. intros Hnf.
  rewrite !count_result by done. unfold content. rewrite Hu, Hd.
  split; [done|]. split; [done|]. intros q.
  split; by apply find_result_on_files.
Qed.

(** ** More under any fault plan *)

Lemma storage_count_lines p : keeps storage (perform (CountLines p) Some).
Proof.
  apply keeps_perform. intros w fs ok Hfs. unfold storage. simpl.
  rewrite io_attempts_app, filter_app. simpl. rewrite filter_cons. simpl.
  rewrite filter_nil, app_nil_r. by destruct Hfs as [[= <-]| ->].
Qed.

(** X16. The read operations never write: under any fault plan [find],
    [findOne] and [count] leave the whole file system as it was and
    attempt no append, rename or removal. *)
Theorem read_operations_never_write matchFn w :
  storage (find matchFn w).2 = storage w ∧
  storage (findOne matchFn w).2 = storage w ∧
  storage (count w).2 = storage w.
Proof.
  split; [|split].
  - apply keeps_read; [apply storage_read_batch|].
    intros batch found w'. rewrite find_visitor_run. simpl.
    apply storage_calls, io_attempts_MatchFn.
  - apply keeps_bind; [|intros st; apply keeps_ret].
    apply keeps_read; [apply storage_read_batch|].
    intros batch st w'. rewrite findOne_visitor_run. simpl.
    apply storage_calls, io_attempts_MatchFn.
  - apply keeps_bind; [apply storage_count_lines|]. intros _.
    apply keeps_bind; [by intros w'|]. intros fs. apply keeps_ret.
Qed.

(** X17. The transient [add] leaves the world as it was, whatever it is
    given. For records that have a serialization (every [Record] here
    has one, [stringify] being total), the durable call returns, when no
    I/O fails, what the transient call returns. *)
Theorem add_transient_previews_durable data w :
  (add data false w).2 = w ∧
  ((∀ n, faulty n = false) → (add data true w).1 = (add data false w).1).
Proof.
  split.
  - destruct data as [| | | | | | o|items]; try done.
    unfold add. simpl. by case_bool_decide.
  - intros Hnf. destruct data as [| | | | | | o|items]; try done.
    + unfold add. simpl. unfold add_items, mbind, M_bind.
      rewrite appendText_ok by done. done.
    + unfold add. simpl. case_bool_decide; [done|].
      unfold add_items, mbind, M_bind. rewrite appendText_run by done.
      by destruct (reaches_file _).
Qed.

Lemma fs_rename_other src dst p fs fs' :
  src ≠ p → dst ≠ p → fs_rename src dst fs = Some fs' → fs' !! p = fs !! p.
Proof.
  intros Hs Hd. unfold fs_rename. destruct (fs !! src) as [c|]; [|done].
  intros [= <-]. by rewrite lookup_insert_ne, lookup_delete_ne.
Qed.

Lemma other_path_perform (p : string) op eff :
  (∀ fs fs', eff fs = Some fs' → fs' !! p = fs !! p) →
  keeps (λ w, files w !! p) (perform op eff).
Proof.
  intros H. apply keeps_perform. intros w fs ok [He| ->]; simpl; [|done].
  by apply H.
Qed.

Lemma other_path_append (p q : string) records :
  q ≠ p → keeps (λ w, files w !! p) (append q records).
Proof.
  intros Hne. unfold append, appendText.
  destruct (reaches_file _); [|apply keeps_ret].
  apply other_path_perform. intros fs fs' He.
  by apply (fs_append_other q p _ _ _ Hne He).
Qed.

Lemma other_path_task {A} (p : string) (rewrite_phase : string → M A) :
  tempPath ≠ p → filePath ≠ p →
  keeps (λ w, files w !! p) (rewrite_phase tempPath) →
  keeps (λ w, files w !! p)
    (temporaryFileTask
       (λ tmp, x ← rewrite_phase tmp; rename tmp filePath;; mret x)).
Proof.
  intros Ht Hf Hphase w. unfold temporaryFileTask.
  assert (files (task_start w) !! p = files w !! p) as Hstart.
  { unfold task_start. destruct precreated; [|done].
    simpl. by rewrite lookup_insert_ne. }
  assert (keeps (λ w, files w !! p)
            (x ← rewrite_phase tempPath; rename tempPath filePath;; mret x))
    as Hbody.
  { apply keeps_bind; [done|]. intros x.
    apply keeps_bind; [|intros _; apply keeps_ret].
    apply other_path_perform. intros fs fs'. by apply fs_rename_other. }
  specialize (Hbody (task_start w)). simpl in Hbody.
  destruct ((x ← rewrite_phase tempPath; rename tempPath filePath;; mret x)
              (task_start w)) as [r w1].
  simpl in *. by rewrite fs_remove_other, Hbody.
Qed.

(** X18. The store touches its own two paths only: under any fault plan
    [add], [update] and [delete], durable or not, leave every file other
    than the backing file and the temporary file as it was. *)
Theorem other_files_untouched matchFn updateFn data mutateDb (p : string) w :
  p ≠ filePath → p ≠ tempPath →
  files (add data mutateDb w).2 !! p = files w !! p ∧
  files (update matchFn updateFn mutateDb w).2 !! p = files w !! p ∧
  files (delete matchFn mutateDb w).2 !! p = files w !! p.
Proof.
  intros Hf Ht.
  assert (filePath ≠ p) as Hf' by done. assert (tempPath ≠ p) as Ht' by done.
  split; [|split].
  - assert (∀ items, files (add_items items mutateDb w).2 !! p = files w !! p)
      as Hitems.
    { intros items. unfold add_items.
      apply (keeps_bind (λ w, files w !! p)); [|intros _; apply keeps_ret].
      destruct mutateDb; [|apply keeps_ret].
      unfold appendText. destruct (reaches_file _); [|apply keeps_ret].
      apply other_path_perform. intros fs fs' He.
      by apply (fs_append_other filePath p _ _ _ Hf' He). }
    destruct data as [| | | | | | o|items]; try done.
    + apply Hitems.
    + unfold add. simpl. case_bool_decide; [done|]. apply Hitems.
  - destruct mutateDb.
    + unfold update. apply other_path_task; [done..|].
      apply keeps_read; [by apply other_path_perform; intros ?? [= <-]|].
      intros batch updated w'. unfold update_durable_visitor, mbind, M_bind.
      rewrite update_map_run.
      pose proof (other_path_append p tempPath
                    (updated_record matchFn updateFn <$> batch) Ht') as Ha.
      match goal with |- context [append _ _ ?w1] => specialize (Ha w1) end.
      by destruct (append _ _ _) as [[[]|e] w2].
    + assert (files (update matchFn updateFn false w).2 = files w) as Hsame.
      { by injection (storage_transient_update matchFn updateFn w). }
      by rewrite Hsame.
  - destruct mutateDb.
    + unfold delete. apply other_path_task; [done..|].
      apply keeps_read; [by apply other_path_perform; intros ?? [= <-]|].
      intros batch kept w'. unfold delete_durable_visitor, mbind, M_bind.
      rewrite delete_filter_run. case_bool_decide; [|done].
      pose proof (other_path_append p tempPath
                    (filter (λ r, matchFn r = false) batch) Ht') as Ha.
      match goal with |- context [append _ _ ?w1] => specialize (Ha w1) end.
      by destruct (append _ _ _) as [[[]|e] w2].
    + assert (files (delete matchFn false w).2 = files w) as Hsame.
      { by injection (storage_transient_delete matchFn w). }
      by rewrite Hsame.
Qed.

End file.

(** * The store on sample inputs *)

Lemma one_batch_concat lines : concat (one_batch lines) = lines.
Proof. unfold one_batch. simpl. apply app_nil_r. Qed.

Lemma line_batches_concat lines : concat (line_batches lines) = lines.
Proof.
  unfold line_batches. induction lines as [|l lines IH]; [done|].
  simpl. by f_equal.
Qed.

(** C3, against batch-granular stopping. The three records arrive in one
    batch and the first of them matches: [findOne] returns it having
    called the predicate on it alone, not on the rest of the batch. *)
Lemma findOne_skips_rest_of_batch :
  let run := findOne text_parse one_batch no_fault users is_a
               (store_of users ["a"; "b"; "c"]) in
  one_batch (content users (store_of (Record := string) users ["a"; "b"; "c"]))
    = [["a"; "b"; "c"]] ∧
  run.1 = Ok (Some "a") ∧
  matchFn_calls (log run.2) = ["a"] ∧
  "b" ∉ matchFn_calls (log run.2).
Proof.
  cbv zeta. split; [reflexivity|]. split; [reflexivity|].
  split; [reflexivity|].
  change (matchFn_calls _) with ["a"].
  intros [Heq|Hin]%elem_of_cons; [discriminate|]. by apply elem_of_nil in Hin.
Qed.

(** [findOne_evaluates_through_first_match] on three lines read one by one,
    the second of which matches. *)
Lemma findOne_evaluates_through_first_match_witness :
  matchFn_calls
    (log (findOne text_parse line_batches no_fault users is_b
            (store_of users ["a"; "b"; "c"])).2) =
  matchFn_calls (log (store_of users ["a"; "b"; "c"])) ++
    through_first is_b ["a"; "b"; "c"].
Proof.
  apply (findOne_evaluates_through_first_match id text_parse line_batches
           no_fault users (λ _, eq_refl) (λ _, eq_refl) line_batches_concat).
  reflexivity.
Defined.

(** [findOne_returns_first_match] on four lines read one by one, with two
    matching records. *)
Lemma findOne_returns_first_match_witness :
  (findOne text_parse line_batches no_fault users is_b
     (store_of users ["a"; "b"; "c"; "b"])).1 =
  Ok (List.find is_b ["a"; "b"; "c"; "b"]).
Proof.
  apply (findOne_returns_first_match id text_parse line_batches
           no_fault users (λ _, eq_refl) (λ _, eq_refl) line_batches_concat).
  reflexivity.
Defined.

(** C2, against byte-identity of the lines that do not match. The file
    holds one valid line with a blank in it and no record matches: the
    durable [update] returns normally and has written the line back as
    [JSON.stringify] prints its record, without the blank. *)
Lemma update_reserializes_unmatched_line :
  let w := store_of users ["{ }"] in
  let run := update id loose_parse one_batch no_fault users tmp false false
               is_a shout true w in
  mapM loose_parse (content users w) = Some ["{}"] ∧
  is_a "{}" = false ∧
  run.1 = Ok [] ∧
  content users w !! 0 = Some "{ }" ∧
  content users run.2 !! 0 = Some "{}" ∧
  content users run.2 ≠ content users w.
Proof. cbv zeta. by vm_compute. Qed.

(** [update_durable_in_place] on three lines read one by one: the first
    has a blank in it and does not match, the second matches, the third
    is kept byte for byte. *)
Lemma update_durable_in_place_witness :
  let w := store_of users ["{ }"; "a"; "b"] in
  let w' := (update id loose_parse line_batches no_fault users tmp false false
               is_a shout true w).2 in
  matchFn_calls (log w') = matchFn_calls (log w) ++ ["{}"; "a"; "b"] ∧
  content users w' = id <$> (updated_record is_a shout <$> ["{}"; "a"; "b"]) ∧
  length (content users w') = length (content users w) ∧
  (∀ i r, ["{}"; "a"; "b"] !! i = Some r →
     content users w' !! i = Some (id (if is_a r then shout r else r))) ∧
  (∀ i r, ["{}"; "a"; "b"] !! i = Some r → is_a r = false →
     content users w !! i = Some (id r) →
     content users w' !! i = content users w !! i).
Proof.
  apply (update_durable_in_place id loose_parse line_batches no_fault users tmp
           false false (λ _, eq_refl) line_batches_concat
           is_a shout ["{}"; "a"; "b"] (store_of users ["{ }"; "a"; "b"])).
  - discriminate.
  - reflexivity.
  - reflexivity.
Defined.

(** [add_then_find_roundtrip] on a store without a file. *)
Lemma add_then_find_roundtrip_witness :
  (add_then_find id text_parse line_batches no_fault users false ["a"; "b"]
     (λ _, true) empty_store).1 = Ok ["a"; "b"].
Proof.
  apply (add_then_find_roundtrip id text_parse line_batches no_fault users false
           (λ _, eq_refl) (λ _, eq_refl) line_batches_concat).
  reflexivity.
Defined.


(** [transient_ops_leave_store] on a two-line store and a run without
    faults. *)
Lemma transient_ops_leave_store_witness :
  let w := store_of users ["a"; "b"] in
  let wu := (update id text_parse line_batches no_fault users tmp false false
               is_a shout false w).2 in
  let wd := (delete id text_parse line_batches no_fault users tmp false false
               is_a false w).2 in
  (count no_fault users wu).1 = (count no_fault users w).1 ∧
  (count no_fault users wd).1 = (count no_fault users w).1 ∧
  ∀ q, (find text_parse line_batches no_fault users q wu).1 =
       (find text_parse line_batches no_fault users q w).1 ∧
       (find text_parse line_batches no_fault users q wd).1 =
       (find text_parse line_batches no_fault users q w).1.
Proof.
  cbv zeta.
  apply (transient_ops_leave_store id text_parse line_batches no_fault users
           tmp false false is_a shout (store_of users ["a"; "b"])).
  intros n. reflexivity.
Defined.

(** [add_rejects_only_non_records] on a string: rejected, nothing
    touched. *)
Lemma add_rejects_only_non_records_witness :
  (add id no_fault users false (JsString "a") true (store_of users ["a"])).1 =
    Err InvalidInput ∧
  (add id no_fault users false (JsString "a") true (store_of users ["a"])).2 =
    store_of users ["a"].
Proof.
  destruct (add_rejects_only_non_records id no_fault users false (JsString "a") true
              (store_of users ["a"])) as (Hiff & Hsame & _).
  assert ((add id no_fault users false (JsString "a") true (store_of users ["a"])).1 =
          Err InvalidInput) as Herr.
  { apply Hiff. split; intros [x Hx]; discriminate Hx. }
  split; [exact Herr | exact (Hsame Herr)].
Defined.

(** [delete_returns_kept_when_some_kept] on a durable [delete] that keeps
    two of four records. *)
Lemma delete_returns_kept_when_some_kept_witness :
  (delete id text_parse line_batches no_fault users tmp false false is_a true
     (store_of users ["a"; "b"; "a"; "c"])).1 =
    Ok (filter (λ r, is_a r = false) ["a"; "b"; "a"; "c"]) ∧
  content users
    (delete id text_parse line_batches no_fault users tmp false false is_a true
       (store_of users ["a"; "b"; "a"; "c"])).2 =
    id <$> filter (λ r, is_a r = false) ["a"; "b"; "a"; "c"].
Proof.
  apply (delete_returns_kept_when_some_kept id text_parse line_batches
           no_fault users tmp false false (λ _, eq_refl) (λ _, eq_refl)
           line_batches_concat is_a ["a"; "b"; "a"; "c"]
           (store_of users ["a"; "b"; "a"; "c"]) true).
  - discriminate.
  - reflexivity.
  - reflexivity.
  - left. discriminate.
Defined.

(** [delete_skip_agrees] where the first batch keeps nothing and the
    second keeps its record. *)
Lemma delete_skip_agrees_witness :
  (delete id text_parse line_batches no_fault users tmp false false is_a true
     (store_of users ["a"; "b"])).1 =
  (delete_unconditional id text_parse line_batches no_fault users tmp false false
     is_a (store_of users ["a"; "b"])).1 ∧
  files (delete id text_parse line_batches no_fault users tmp false false is_a true
           (store_of users ["a"; "b"])).2 !! users =
  files (delete_unconditional id text_parse line_batches no_fault users tmp
           false false is_a (store_of users ["a"; "b"])).2 !! users.
Proof.
  apply (delete_skip_agrees id text_parse line_batches no_fault users tmp
           false false (λ _, eq_refl) (λ _, eq_refl) line_batches_concat
           is_a ["a"; "b"]).
  - discriminate.
  - reflexivity.
  - reflexivity.
  - left. discriminate.
Defined.

(** [delete_all_run] with a temporary file created up front: the rename
    goes through and the store ends empty. *)
Lemma delete_all_run_witness :
  ∃ evs,
    filter (λ op, is_write op = true) (io_attempts evs) = [] ∧
    log (delete id text_parse line_batches no_fault users tmp true false always true
           (store_of users ["a"; "b"])).2 =
      (log (store_of users ["a"; "b"]) ++ evs) ++
        [Io (Rename tmp users) true; Io (Remove tmp) true] ∧
    (delete id text_parse line_batches no_fault users tmp true false always true
       (store_of users ["a"; "b"])).1 = Ok [].
Proof.
  apply (delete_all_run id text_parse line_batches no_fault users tmp true false
           (λ _, eq_refl) (λ _, eq_refl) line_batches_concat
           always ["a"; "b"]).
  - discriminate.
  - reflexivity.
  - reflexivity.
  - by repeat constructor.
Defined.

(** C5, where the code departs from the specification. With a
    temporary-file task that hands out a path without creating the file,
    the durable [delete] of every record does not return the (empty) kept
    set: the rename of the path nobody wrote is refused, the call fails
    and the records stay in the file. The transient call on the same
    store returns the empty kept set. *)
Lemma delete_all_durable_does_not_return :
  let w := store_of users ["a"] in
  let durable := delete id text_parse one_batch no_fault users tmp false false
                   always true w in
  let transient := delete id text_parse one_batch no_fault users tmp false false
                     always false w in
  durable.1 = Err (IOFailure (Rename tmp users)) ∧
  files durable.2 !! users = Some ["a"] ∧
  transient.1 = Ok [].
Proof. cbv zeta. by vm_compute. Qed.

(** [delete_skip_is_unobservable] where every record is deleted and
    the temporary-file task hands out a path only: both runs end in the
    refused rename. *)
Lemma delete_skip_is_unobservable_witness :
  delete id text_parse line_batches no_fault users tmp false false is_a true
    (store_of users ["a"; "a"]) =
  delete_unconditional id text_parse line_batches no_fault users tmp false
    false is_a (store_of users ["a"; "a"]).
Proof.
  apply (delete_skip_is_unobservable id text_parse line_batches no_fault users
           tmp false false is_a (store_of users ["a"; "a"])).
  reflexivity.
Defined.

(** What the hypothesis on the accessor is for. Were an append of zero
    lines to create the missing file, the variant that appends every
    batch would create the temporary file when no record is kept, its
    rename would go through and empty the store, while the rename of the
    skipping code is refused. *)
Lemma delete_skip_shows_if_empty_append_creates :
  let w := store_of users ["a"; "a"] in
  let skipping := delete id text_parse line_batches no_fault users tmp false
                    true is_a true w in
  let appending := delete_unconditional id text_parse line_batches no_fault
                     users tmp false true is_a w in
  skipping.1 = Err (IOFailure (Rename tmp users)) ∧
  files skipping.2 !! users = Some ["a"; "a"] ∧
  appending.1 = Ok [] ∧
  files appending.2 !! users = Some [].
Proof. cbv zeta. by vm_compute. Qed.

(** C10, where the code departs from the specification. Every record
    matches: the log shows the batch reads and the predicate calls, no
    append to the temporary file, then the rename attempt, which is
    refused; the call fails instead of returning the empty kept set. *)
Lemma delete_all_renames_unwritten_path :
  let run := delete id text_parse line_batches no_fault users tmp false false
               always true (store_of users ["a"; "b"]) in
  log run.2 =
    [Io (ReadBatch users) true; MatchFn "a";
     Io (ReadBatch users) true; MatchFn "b";
     Io (Rename tmp users) false; Io (Remove tmp) true] ∧
  filter (λ op, is_append_to tmp op = true) (io_attempts (log run.2)) = [] ∧
  run.1 = Err (IOFailure (Rename tmp users)).
Proof. cbv zeta. by vm_compute. Qed.

(** ** The further properties on sample inputs *)

(** [find_returns_all_matches] on four lines read one by one, two of
    which match. *)
Lemma find_returns_all_matches_witness :
  (find text_parse line_batches no_fault users is_b
     (store_of users ["a"; "b"; "c"; "b"])).1 =
    Ok (filter (λ r, is_b r = true) ["a"; "b"; "c"; "b"]) ∧
  matchFn_calls
    (log (find text_parse line_batches no_fault users is_b
            (store_of users ["a"; "b"; "c"; "b"])).2) =
    matchFn_calls (log (store_of users ["a"; "b"; "c"; "b"]))
      ++ ["a"; "b"; "c"; "b"].
Proof.
  apply (find_returns_all_matches id text_parse line_batches no_fault users
           (λ _, eq_refl) (λ _, eq_refl) line_batches_concat).
  reflexivity.
Defined.

(** [findOne_is_head_of_find] on the same store. *)
Lemma findOne_is_head_of_find_witness :
  ∃ found,
    (find text_parse line_batches no_fault users is_b
       (store_of users ["a"; "b"; "c"; "b"])).1 = Ok found ∧
    (findOne text_parse line_batches no_fault users is_b
       (store_of users ["a"; "b"; "c"; "b"])).1 = Ok (head found).
Proof.
  apply (findOne_is_head_of_find id text_parse line_batches no_fault users
           (λ _, eq_refl) (λ _, eq_refl) line_batches_concat
           is_b ["a"; "b"; "c"; "b"]).
  reflexivity.
Defined.

(** [count_is_length_of_find_all] on a three-line store. *)
Lemma count_is_length_of_find_all_witness :
  (count no_fault users (store_of (Record := string) users ["a"; "b"; "c"])).1 =
    Ok (length ["a"; "b"; "c"]) ∧
  (find text_parse one_batch no_fault users (λ _, true)
     (store_of users ["a"; "b"; "c"])).1 = Ok ["a"; "b"; "c"] ∧
  (files (store_of (Record := string) users ["a"; "b"; "c"]) !! users = None →
   (count no_fault users (store_of (Record := string) users ["a"; "b"; "c"])).1
     = Ok 0).
Proof.
  apply (count_is_length_of_find_all id text_parse one_batch no_fault users
           (λ _, eq_refl) (λ _, eq_refl) one_batch_concat ["a"; "b"; "c"]).
  reflexivity.
Defined.

(** [add_appends_in_order] on a store that already holds one line. *)
Lemma add_appends_in_order_witness :
  ((add id no_fault users false (JsArray ["b"; "c"]) true (store_of users ["a"])).1 =
     Ok ["b"; "c"] ∧
   content users
     (add id no_fault users false (JsArray ["b"; "c"]) true (store_of users ["a"])).2 =
     content users (store_of (Record := string) users ["a"]) ++ (id <$> ["b"; "c"])) ∧
  ((add id no_fault users false (JsObject "d") true (store_of users ["a"])).1 =
     Ok ["d"] ∧
   content users
     (add id no_fault users false (JsObject "d") true (store_of users ["a"])).2 =
     content users (store_of (Record := string) users ["a"]) ++ [id "d"]).
Proof.
  apply (add_appends_in_order id no_fault users false (λ _, eq_refl)).
Defined.

(** [add_then_count] on a store that already holds one line. *)
Lemma add_then_count_witness :
  (count no_fault users
     (add id no_fault users false (JsArray ["b"; "c"]) true (store_of users ["a"])).2).1 =
    Ok (length (content users (store_of (Record := string) users ["a"]))
        + length ["b"; "c"]).
Proof.
  apply (add_then_count id no_fault users false (λ _, eq_refl)).
Defined.

(** [update_transient_returns_transformed] with two matching records. *)
Lemma update_transient_returns_transformed_witness :
  (update id text_parse line_batches no_fault users tmp false false is_b shout false
     (store_of users ["a"; "b"; "c"; "b"])).1 =
    Ok (shout <$> filter (λ r, is_b r = true) ["a"; "b"; "c"; "b"]) ∧
  updateFn_calls
    (log (update id text_parse line_batches no_fault users tmp false false is_b shout
            false (store_of users ["a"; "b"; "c"; "b"])).2) =
    updateFn_calls (log (store_of users ["a"; "b"; "c"; "b"]))
      ++ filter (λ r, is_b r = true) ["a"; "b"; "c"; "b"].
Proof.
  apply (update_transient_returns_transformed id text_parse line_batches
           no_fault users tmp false false
           (λ _, eq_refl) (λ _, eq_refl) line_batches_concat).
  reflexivity.
Defined.

(** [update_durable_returns_transformed] on the same store. *)
Lemma update_durable_returns_transformed_witness :
  (update id text_parse line_batches no_fault users tmp false false is_b shout true
     (store_of users ["a"; "b"; "c"; "b"])).1 =
    Ok (shout <$> filter (λ r, is_b r = true) ["a"; "b"; "c"; "b"]) ∧
  (update id text_parse line_batches no_fault users tmp false false is_b shout true
     (store_of users ["a"; "b"; "c"; "b"])).1 =
  (update id text_parse line_batches no_fault users tmp false false is_b shout false
     (store_of users ["a"; "b"; "c"; "b"])).1 ∧
  updateFn_calls
    (log (update id text_parse line_batches no_fault users tmp false false is_b shout
            true (store_of users ["a"; "b"; "c"; "b"])).2) =
    updateFn_calls (log (store_of users ["a"; "b"; "c"; "b"]))
      ++ filter (λ r, is_b r = true) ["a"; "b"; "c"; "b"].
Proof.
  apply (update_durable_returns_transformed id text_parse line_batches
           no_fault users tmp false false
           (λ _, eq_refl) (λ _, eq_refl) line_batches_concat).
  - discriminate.
  - reflexivity.
  - reflexivity.
  - left. discriminate.
Defined.

(** [update_then_find]: looking for the rewritten record afterwards. *)
Lemma update_then_find_witness :
  (find text_parse one_batch no_fault users is_a
     (update id text_parse one_batch no_fault users tmp false false is_b (λ _, "a")
        true (store_of users ["a"; "b"; "c"])).2).1 =
    Ok (filter (λ r, is_a r = true)
          (updated_record is_b (λ _, "a") <$> ["a"; "b"; "c"])).
Proof.
  apply (update_then_find id text_parse one_batch no_fault users tmp false false
           (λ _, eq_refl) (λ _, eq_refl) one_batch_concat).
  - discriminate.
  - reflexivity.
  - reflexivity.
Defined.

(** [delete_then_find] after deleting two of four records. *)
Lemma delete_then_find_witness :
  (find text_parse line_batches no_fault users is_a
     (delete id text_parse line_batches no_fault users tmp false false is_a true
        (store_of users ["a"; "b"; "a"; "c"])).2).1 = Ok [] ∧
  (find text_parse line_batches no_fault users is_b
     (delete id text_parse line_batches no_fault users tmp false false is_a true
        (store_of users ["a"; "b"; "a"; "c"])).2).1 =
    Ok (filter (λ r, is_b r = true)
          (filter (λ r, is_a r = false) ["a"; "b"; "a"; "c"])) ∧
  (count no_fault users
     (delete id text_parse line_batches no_fault users tmp false false is_a true
        (store_of users ["a"; "b"; "a"; "c"])).2).1 =
    Ok (length (filter (λ r, is_a r = false) ["a"; "b"; "a"; "c"])).
Proof.
  apply (delete_then_find id text_parse line_batches no_fault users tmp false false
           (λ _, eq_refl) (λ _, eq_refl) line_batches_concat).
  - discriminate.
  - reflexivity.
  - reflexivity.
  - left. discriminate.
Defined.

(** [delete_twice] on the same store. *)
Lemma delete_twice_witness :
  (delete id text_parse line_batches no_fault users tmp false false is_a true
     (delete id text_parse line_batches no_fault users tmp false false is_a true
        (store_of users ["a"; "b"; "a"; "c"])).2).1 =
  (delete id text_parse line_batches no_fault users tmp false false is_a true
     (store_of users ["a"; "b"; "a"; "c"])).1 ∧
  content users
    (delete id text_parse line_batches no_fault users tmp false false is_a true
       (delete id text_parse line_batches no_fault users tmp false false is_a true
          (store_of users ["a"; "b"; "a"; "c"])).2).2 =
  content users
    (delete id text_parse line_batches no_fault users tmp false false is_a true
       (store_of users ["a"; "b"; "a"; "c"])).2.
Proof.
  apply (delete_twice id text_parse line_batches no_fault users tmp false false
           (λ _, eq_refl) (λ _, eq_refl) line_batches_concat
           is_a ["a"; "b"; "a"; "c"]).
  - discriminate.
  - reflexivity.
  - reflexivity.
  - left. discriminate.
Defined.

(** [no_match_changes_nothing] with a predicate no line satisfies. *)
Lemma no_match_changes_nothing_witness :
  ((update id text_parse one_batch no_fault users tmp false false is_a shout true
      (store_of users ["b"; "c"])).1 = Ok [] ∧
   content users
     (update id text_parse one_batch no_fault users tmp false false is_a shout true
        (store_of users ["b"; "c"])).2 = content users (store_of (Record := string) users ["b"; "c"])) ∧
  ((delete id text_parse one_batch no_fault users tmp false false is_a true
      (store_of users ["b"; "c"])).1 = Ok ["b"; "c"] ∧
   content users
     (delete id text_parse one_batch no_fault users tmp false false is_a true
        (store_of users ["b"; "c"])).2 = content users (store_of (Record := string) users ["b"; "c"])).
Proof.
  apply (no_match_changes_nothing id text_parse one_batch no_fault users tmp
           false false (λ _, eq_refl) (λ _, eq_refl) one_batch_concat).
  - discriminate.
  - reflexivity.
  - reflexivity.
  - by repeat constructor.
  - left. discriminate.
Defined.

(** [default_modes] on a two-line store. *)
Lemma default_modes_witness :
  files (update_call id text_parse one_batch no_fault users tmp false false is_a shout
           None (store_of users ["a"; "b"])).2 =
    files (store_of (Record := string) users ["a"; "b"]) ∧
  files (delete_call id text_parse one_batch no_fault users tmp false false is_a
           None (store_of users ["a"; "b"])).2 =
    files (store_of (Record := string) users ["a"; "b"]) ∧
  content users
    (add_call id no_fault users false (JsArray ["c"]) None (store_of users ["a"; "b"])).2 =
    content users (store_of (Record := string) users ["a"; "b"]) ++ (id <$> ["c"]).
Proof.
  apply (default_modes id text_parse one_batch no_fault users tmp false false
           (λ _, eq_refl)).
Defined.

(** [add_transient_previews_durable] on a two-record array. *)
Lemma add_transient_previews_durable_witness :
  (add id no_fault users false (JsArray ["a"; "b"]) false empty_store).2 = empty_store ∧
  (add id no_fault users false (JsArray ["a"; "b"]) true empty_store).1 =
  (add id no_fault users false (JsArray ["a"; "b"]) false empty_store).1.
Proof.
  destruct (add_transient_previews_durable id no_fault users false
              (JsArray ["a"; "b"]) empty_store) as [Hsame Hres].
  split; [exact Hsame|]. apply Hres. intros n. reflexivity.
Defined.

(** [other_files_untouched]: a second entity file next to the store,
    while the first append of a durable run fails. *)
Lemma other_files_untouched_witness :
  let w := World (Record := string)
             {[ users := ["a"; "b"]; "posts.jsonl" := ["p"] ]} 0 [] in
  files (add id second_fails users false (JsArray ["c"]) true w).2 !! "posts.jsonl" =
    files w !! "posts.jsonl" ∧
  files (update id text_parse one_batch second_fails users tmp false false is_a shout
           true w).2 !! "posts.jsonl" = files w !! "posts.jsonl" ∧
  files (delete id text_parse one_batch second_fails users tmp false false is_a
           true w).2 !! "posts.jsonl" = files w !! "posts.jsonl".
Proof.
  cbv zeta.
  apply (other_files_untouched id text_parse one_batch second_fails users tmp
           false false is_a shout (JsArray ["c"]) true "posts.jsonl").
  - discriminate.
  - discriminate.
Defined.

(** [update_all_or_nothing] when the first append to the temporary file
    fails. *)
Lemma update_all_or_nothing_witness :
  ((update id text_parse one_batch second_fails users tmp false false is_a shout true
      (store_of users ["a"; "b"])).1 =
     Ok (shout <$> filter (λ r, is_a r = true) ["a"; "b"]) ∧
   content users
     (update id text_parse one_batch second_fails users tmp false false is_a shout
        true (store_of users ["a"; "b"])).2 =
     id <$> (updated_record is_a shout <$> ["a"; "b"])) ∨
  (∃ e,
     (update id text_parse one_batch second_fails users tmp false false is_a shout
        true (store_of users ["a"; "b"])).1 = Err e ∧
     files (update id text_parse one_batch second_fails users tmp false false is_a
              shout true (store_of users ["a"; "b"])).2 !! users =
       files (store_of (Record := string) users ["a"; "b"]) !! users).
Proof.
  apply (update_all_or_nothing id text_parse one_batch second_fails users tmp
           false false (λ _, eq_refl) one_batch_concat).
  - discriminate.
  - reflexivity.
  - reflexivity.
Defined.

(** [delete_all_or_nothing] when the first append to the temporary file
    fails. *)
Lemma delete_all_or_nothing_witness :
  ((delete id text_parse one_batch second_fails users tmp false false is_a true
      (store_of users ["a"; "b"])).1 =
     Ok (filter (λ r, is_a r = false) ["a"; "b"]) ∧
   content users
     (delete id text_parse one_batch second_fails users tmp false false is_a true
        (store_of users ["a"; "b"])).2 =
     id <$> filter (λ r, is_a r = false) ["a"; "b"]) ∨
  (∃ e,
     (delete id text_parse one_batch second_fails users tmp false false is_a true
        (store_of users ["a"; "b"])).1 = Err e ∧
     files (delete id text_parse one_batch second_fails users tmp false false is_a
              true (store_of users ["a"; "b"])).2 !! users =
       files (store_of (Record := string) users ["a"; "b"]) !! users).
Proof.
  apply (delete_all_or_nothing id text_parse one_batch second_fails users tmp
           false false (λ _, eq_refl) one_batch_concat).
  - discriminate.
  - reflexivity.
  - reflexivity.
Defined.

(** [findOne_stops_at_match] on four lines read one by one: the second
    line matches and the last two are never read. *)
Lemma findOne_stops_at_match_witness :
  (findOne text_parse line_batches no_fault users is_b
     (store_of users ["a"; "b"; "c"; "b"])).1 = Ok (Some "b") ∧
  last (log (findOne text_parse line_batches no_fault users is_b
               (store_of users ["a"; "b"; "c"; "b"])).2) = Some (MatchFn "b").
Proof.
  apply (findOne_stops_at_match id text_parse line_batches no_fault users
           (λ _, eq_refl) (λ _, eq_refl) line_batches_concat
           is_b ["a"; "b"; "c"; "b"]).
  - reflexivity.
  - reflexivity.
Defined.

(** [predicate_called_once_per_record] on a durable run. *)
Lemma predicate_called_once_per_record_witness :
  matchFn_calls
    (log (update id text_parse line_batches no_fault users tmp false false is_a shout
            true (store_of users ["a"; "b"; "a"])).2) =
    matchFn_calls (log (store_of users ["a"; "b"; "a"])) ++ ["a"; "b"; "a"] ∧
  matchFn_calls
    (log (delete id text_parse line_batches no_fault users tmp false false is_a
            true (store_of users ["a"; "b"; "a"])).2) =
    matchFn_calls (log (store_of users ["a"; "b"; "a"])) ++ ["a"; "b"; "a"].
Proof.
  apply (predicate_called_once_per_record id text_parse line_batches no_fault
           users tmp false false (λ _, eq_refl) (λ _, eq_refl) line_batches_concat).
  - discriminate.
  - reflexivity.
  - reflexivity.
Defined.

End JsonlDir.
